(** * GoogleRealtimeMap: the map adapter of src/realtime/realtimemap.ts

    A shallow embedding of the class [GoogleRealtimeMap<T>]: a local
    [ObservableMap] cache mirrored onto a gapi [CollaborativeMap], with a
    [changed] signal.  Methods are state transformers over a [World] that
    holds the adapter's private fields and the collaborative map the
    service owns; a method either returns or lets a [TypeError] escape
    (a call on the null [_gmap]). *)

From stdpp Require Import gmap strings list.

Open Scope Z_scope.
Open Scope string_scope.

(** ** JavaScript values *)

(** The values that travel through the adapter.  Numbers are the integer
    valued ones (no NaN, no fractions).  [JObject ty id] is an object whose
    [type] property is the string [ty] when there is one: the gapi
    collaborative objects carry ['List'], ['EditableString'] or ['Map']
    there.  [JLinkable id] is an object of the host application that has a
    [link] method, such as the observable vector a converter's [to]
    returns.  The last three constructors are the wrappers
    [_createNewEntry] builds around a collaborative object. *)
Inductive value : Type :=
| undefined
| null
| JBool (b : bool)
| JNum (n : Z)
| JStr (s : string)
| JObject (ty : option string) (id : nat)
| JLinkable (id : nat)
| NewGoogleRealtimeVector (googleObject : value)
| NewGoogleRealtimeString (googleObject : value)
| NewGoogleRealtimeMap (googleObject : value).

(** ToBoolean: what [if (x)], [!x], [x && y] and [x ? a : b] test. *)
Definition truthy (v : value) : bool :=
  match v with
  | undefined | null => false
  | JBool b => b
  | JNum n => negb (Z.eqb n 0)
  | JStr s => negb (String.eqb s "")
  | _ => true
  end.

(** [item.type]: only objects that carry the property have one. *)
Definition type_of (item : value) : option string :=
  match item with
  | JObject ty _ => ty
  | _ => None
  end.

(** Whether [x.link] is a method, so that the call [x.link(vec)] returns:
    the host's observables have one, and so have the three adapters,
    which implement the observable interfaces ([link(map)] of this class).
    On any other value the call throws a [TypeError]. *)
Definition has_link (x : value) : bool :=
  match x with
  | JLinkable _
  | NewGoogleRealtimeVector _
  | NewGoogleRealtimeString _
  | NewGoogleRealtimeMap _ => true
  | _ => false
  end.

(** [item.type && item.type === tag] *)
Definition has_type (item : value) (tag : string) : bool :=
  match type_of item with
  | Some ty => negb (String.eqb ty "") && String.eqb ty tag
  | None => false
  end.

(** ** The change notifications *)

(** [ObservableMap.ChangeType] *)
Inductive ChangeType : Type := add | remove | change.

(** [ObservableMap.IChangedArgs<T>] *)
Module IChangedArgs.
Record t : Type := Build
  { type : ChangeType; key : string; oldValue : value; newValue : value }.
End IChangedArgs.

(** The event of [gapi.drive.realtime.EventType.VALUE_CHANGED]. *)
Module ValueChangedEvent.
Record t : Type := Build
  { property : string; oldValue : value; newValue : value; isLocal : bool }.
End ValueChangedEvent.

(** [IRealtimeConverter<T>]: the two directions of a per-key transform. *)
Record IRealtimeConverter : Type :=
  { conv_from : value -> value; conv_to : value -> value }.

(** ** The local cache: [ObservableMap<T>] over a JavaScript [Map] *)

(** A JavaScript [Map] keeps its keys in insertion order and holds each key
    once: an association list, where [set] on a present key replaces the
    value where it stands and a new key goes to the end. *)
Module ObservableMap.
Definition t : Type := list (string * value).

Fixpoint get (m : t) (k : string) : value :=
  match m with
  | [] => undefined
  | (k', v) :: m' => if String.eqb k k' then v else get m' k
  end.

Fixpoint has (m : t) (k : string) : bool :=
  match m with
  | [] => false
  | (k', _) :: m' => if String.eqb k k' then true else has m' k
  end.

Fixpoint set (m : t) (k : string) (v : value) : t :=
  match m with
  | [] => [(k, v)]
  | (k', v') :: m' =>
      if String.eqb k k' then (k', v) :: m' else (k', v') :: set m' k v
  end.

Fixpoint delete (m : t) (k : string) : t :=
  match m with
  | [] => []
  | (k', v') :: m' =>
      if String.eqb k k' then delete m' k else (k', v') :: delete m' k
  end.

Definition keys (m : t) : list string := map fst m.
Definition values (m : t) : list value := map snd m.
Definition clear (m : t) : t := fold_left delete (keys m) m.

(** The representation invariant of a [Map]: no key twice. *)
Definition wf (m : t) : Prop := NoDup (keys m).
End ObservableMap.

(** ** The collaborative map and the adapter's fields *)

(** The calls the adapter makes on the collaborative map, in order. *)
Inductive GCall : Type :=
| GSet (k : string) (v : value)
| GDelete (k : string)
| GAddEventListener
| GRemoveAllEventListeners.

(** [gapi.drive.realtime.CollaborativeMap]: its entries, the order the
    service has for enumerating keys, the number of times the adapter's
    VALUE_CHANGED listener is registered on it, and the calls received
    from the adapter. *)
Record CollaborativeMap : Type :=
  { gentries : gmap string value;
    gorder : list string;
    glisteners : nat;
    gcalls : list GCall }.

(** [map.keys()]: every key of the map once; the keys the service's order
    names come first, in that order. *)
Definition g_keys (g : CollaborativeMap) : list string :=
  let ks := (map_to_list (gentries g)).*1 in
  (filter (fun k => k ∈ ks) (remove_dups (gorder g)) ++
   filter (fun k => k ∉ gorder g) ks)%list.

(** [map.get(key)]: [null] for a key the map does not hold. *)
Definition g_get (g : CollaborativeMap) (k : string) : value :=
  default null (gentries g !! k).

(** A field that holds the collaborative map: [null], or a reference to
    the map of the world. *)
Inductive reference : Type := Null | Ref.

(** The collaborative map (shared with the service, which outlives the
    adapter's reference to it) and the private fields of the adapter.
    [changed] lists what [this.changed.emit] was called with, oldest first;
    [slots] counts the receivers connected to the signal. *)
Record World : Type :=
  { gobj : CollaborativeMap;
    _converters : gmap string IRealtimeConverter;
    _gmap : reference;
    _map : ObservableMap.t;
    _isDisposed : bool;
    changed : list IChangedArgs.t;
    slots : nat }.

Definition with_gobj (f : CollaborativeMap -> CollaborativeMap) (w : World) : World :=
  {| gobj := f (gobj w); _converters := _converters w; _gmap := _gmap w;
     _map := _map w; _isDisposed := _isDisposed w; changed := changed w;
     slots := slots w |}.

Definition with_gmap (r : reference) (w : World) : World :=
  {| gobj := gobj w; _converters := _converters w; _gmap := r;
     _map := _map w; _isDisposed := _isDisposed w; changed := changed w;
     slots := slots w |}.

Definition with_map (f : ObservableMap.t -> ObservableMap.t) (w : World) : World :=
  {| gobj := gobj w; _converters := _converters w; _gmap := _gmap w;
     _map := f (_map w); _isDisposed := _isDisposed w; changed := changed w;
     slots := slots w |}.

Definition with_isDisposed (b : bool) (w : World) : World :=
  {| gobj := gobj w; _converters := _converters w; _gmap := _gmap w;
     _map := _map w; _isDisposed := b; changed := changed w;
     slots := slots w |}.

Definition with_slots (n : nat) (w : World) : World :=
  {| gobj := gobj w; _converters := _converters w; _gmap := _gmap w;
     _map := _map w; _isDisposed := _isDisposed w; changed := changed w;
     slots := n |}.

(** [this.changed.emit(args)] *)
Definition emit (args : IChangedArgs.t) (w : World) : World :=
  {| gobj := gobj w; _converters := _converters w; _gmap := _gmap w;
     _map := _map w; _isDisposed := _isDisposed w;
     changed := (changed w ++ [args])%list; slots := slots w |}.

(** [new GoogleRealtimeMap(model, converters)], beside a collaborative map
    [g] of the service: the cache is empty, [_gmap] is null, and the new
    adapter has registered no listener on the map and made no call on
    it. *)
Definition constructor (g : CollaborativeMap)
    (converters : gmap string IRealtimeConverter) : World :=
  {| gobj := {| gentries := gentries g; gorder := gorder g;
                glisteners := 0; gcalls := [] |};
     _converters := converters; _gmap := Null; _map := [];
     _isDisposed := false; changed := []; slots := 0 |}.

(** ** Methods that return or throw *)

(** What a call leaves: a result and the world after it, or an uncaught
    [TypeError] and the world as the statements before it left it. *)
Inductive outcome (A : Type) : Type :=
| Return (a : A) (w : World)
| Throw (w : World).
Arguments Return {A} a w.
Arguments Throw {A} w.

Definition M (A : Type) : Type := World -> outcome A.

#[global] Instance M_ret : MRet M := fun A (a : A) w => Return a w.

#[global] Instance M_bind : MBind M := fun A B (f : A -> M B) (c : M A) w =>
  match c w with
  | Return a w' => f a w'
  | Throw w' => Throw w'
  end.

(** A statement that cannot throw. *)
Definition modify (f : World -> World) : M unit := fun w => Return tt (f w).
Definition read {A} (f : World -> A) : M A := fun w => Return (f w) w.

(** A computation that touches nothing of the world: it gives a value,
    or a [TypeError] escapes. *)
Definition completes {A} (o : option A) : M A := fun w =>
  match o with
  | Some a => Return a w
  | None => Throw w
  end.

(** The world a call leaves, returned or thrown. *)
Definition world_of {A} (o : outcome A) : World :=
  match o with Return _ w => w | Throw w => w end.

(** ** Reconstructing and converting entries *)

(** [_createNewEntry(key, item)]: a falsy item comes back as it is; a
    collaborative list, string or map is wrapped; anything else is returned
    unchanged.  A list at a key with a converter becomes the converter's
    [from] image of the wrapper, after [link(vec)] was called on the [to]
    image of that new entry: the call acts on objects outside the adapter,
    and throws when that image has no [link] method.  [None] stands for
    the [TypeError].  The adapter wrapped around a nested map is built
    with no converters, so that this call is never made for its
    entries. *)
Definition _createNewEntry (converters : gmap string IRealtimeConverter)
    (key : string) (item : value) : option value :=
  if negb (truthy item) then Some item
  else if has_type item "List" then
    let vec := NewGoogleRealtimeVector item in
    match converters !! key with
    | Some c =>
        let newEntry := conv_from c vec in
        if has_link (conv_to c newEntry) then Some newEntry else None
    | None => Some vec
    end
  else if has_type item "EditableString" then Some (NewGoogleRealtimeString item)
  else if has_type item "Map" then Some (NewGoogleRealtimeMap item)
  else Some item.

(** The classification the VALUE_CHANGED listener computes from
    [evt.oldValue] and [evt.newValue]. *)
Definition changeType (oldValue newValue : value) : ChangeType :=
  if truthy oldValue && truthy newValue then change
  else if truthy oldValue && negb (truthy newValue) then remove
  else add.

(** The listener the [googleObject] setter registers.  When
    [_createNewEntry] throws, the cache is not written and nothing is
    emitted. *)
Definition listener (evt : ValueChangedEvent.t) : M unit :=
  if negb (ValueChangedEvent.isLocal evt) then
    entry ← (fun w =>
      completes (_createNewEntry (_converters w) (ValueChangedEvent.property evt)
                                 (ValueChangedEvent.newValue evt)) w);
    modify (with_map (fun m => ObservableMap.set m (ValueChangedEvent.property evt) entry));;
    modify (emit {| IChangedArgs.type :=
                      changeType (ValueChangedEvent.oldValue evt)
                                 (ValueChangedEvent.newValue evt);
                    IChangedArgs.key := ValueChangedEvent.property evt;
                    IChangedArgs.oldValue := ValueChangedEvent.oldValue evt;
                    IChangedArgs.newValue := ValueChangedEvent.newValue evt |})
  else mret tt.

(** ** The collaborative map's operations *)

Definition g_store (k : string) (v : value) (g : CollaborativeMap) : CollaborativeMap :=
  {| gentries := <[k := v]> (gentries g); gorder := gorder g;
     glisteners := glisteners g; gcalls := gcalls g |}.

Definition g_remove (k : string) (g : CollaborativeMap) : CollaborativeMap :=
  {| gentries := delete k (gentries g); gorder := gorder g;
     glisteners := glisteners g; gcalls := gcalls g |}.

Definition g_log (c : GCall) (g : CollaborativeMap) : CollaborativeMap :=
  {| gentries := gentries g; gorder := gorder g;
     glisteners := glisteners g; gcalls := (gcalls g ++ [c])%list |}.

Definition g_listeners (n : nat) (g : CollaborativeMap) : CollaborativeMap :=
  {| gentries := gentries g; gorder := gorder g;
     glisteners := n; gcalls := gcalls g |}.

Definition g_reorder (order : list string) (g : CollaborativeMap) : CollaborativeMap :=
  {| gentries := gentries g; gorder := order;
     glisteners := glisteners g; gcalls := gcalls g |}.

(** The map hands an event to the adapter's listener, once for each time
    it is registered; what a listener throws does not reach the adapter,
    whose world is left as the listener left it. *)
Definition dispatch (evt : ValueChangedEvent.t) (w : World) : World :=
  Nat.iter (glisteners (gobj w)) (fun w' => world_of (listener evt w')) w.

(** A write on the collaborative map, by this client ([isLocal]) or by a
    collaborator: the entry changes and the listeners hear of it. *)
Definition g_set (isLocal : bool) (k : string) (v : value) (w : World) : World :=
  let old := g_get (gobj w) k in
  dispatch {| ValueChangedEvent.property := k; ValueChangedEvent.oldValue := old;
              ValueChangedEvent.newValue := v; ValueChangedEvent.isLocal := isLocal |}
           (with_gobj (g_store k v) w).

Definition g_delete (isLocal : bool) (k : string) (w : World) : World :=
  let old := g_get (gobj w) k in
  dispatch {| ValueChangedEvent.property := k; ValueChangedEvent.oldValue := old;
              ValueChangedEvent.newValue := null; ValueChangedEvent.isLocal := isLocal |}
           (with_gobj (g_remove k) w).

(** A member access on [this._gmap]: a [TypeError] when the field is null. *)
Definition on_gmap {A} (c : M A) : M A := fun w =>
  match _gmap w with
  | Null => Throw w
  | Ref => c w
  end.

(** [this._gmap.set(key, v)] *)
Definition gmap_set (k : string) (v : value) : M unit :=
  on_gmap (modify (fun w => g_set true k v (with_gobj (g_log (GSet k v)) w))).

(** [this._gmap.delete(key)] *)
Definition gmap_delete (k : string) : M unit :=
  on_gmap (modify (fun w => g_delete true k (with_gobj (g_log (GDelete k)) w))).

(** [this._gmap.size] *)
Definition gmap_size : M nat :=
  on_gmap (read (fun w => size (gentries (gobj w)))).

(** [this._gmap.addEventListener(VALUE_CHANGED, listener)] *)
Definition gmap_addEventListener : M unit :=
  on_gmap (modify (with_gobj (fun g =>
    g_log GAddEventListener (g_listeners (S (glisteners g)) g)))).

(** [this._gmap.removeAllEventListeners()] *)
Definition gmap_removeAllEventListeners : M unit :=
  on_gmap (modify (with_gobj (fun g =>
    g_log GRemoveAllEventListeners (g_listeners 0%nat g)))).

(** The body of a [for] loop over a list of keys, left at the first throw. *)
Fixpoint for_each (ks : list string) (body : string -> M unit) : M unit :=
  match ks with
  | [] => mret tt
  | k :: ks' => body k;; for_each ks' body
  end.

(** ** The class *)

Module GoogleRealtimeMap.
Section Methods.
(** [toGoogleSynchronizable] of ./utils, which the adapter imports. *)
Variable toGoogleSynchronizable : value -> value.

(** [_createNewGoogleEntry(key, item)] *)
Definition _createNewGoogleEntry (converters : gmap string IRealtimeConverter)
    (key : string) (item : value) : value :=
  match converters !! key with
  | Some c => toGoogleSynchronizable (conv_to c item)
  | None => item
  end.

(** [readonly isLinkable: boolean = false] *)
Definition isLinkable : M bool := read (fun _ => false).

(** [readonly isLinked: boolean = false] *)
Definition isLinked : M bool := read (fun _ => false).

(** [get size()] *)
Definition size : M nat := gmap_size.

(** [get isDisposed()] *)
Definition isDisposed : M bool := read _isDisposed.

(** [set googleObject(map)], for the collaborative map of the world:
    for each key of the map, in the order of [keys()], the cache takes the
    reconstructed entry; then the listener is registered.  When
    [_createNewEntry] throws, the keys before it are cached, [_gmap] holds
    the map and no listener is registered. *)
Definition populate (key : string) : M unit :=
  entry ← (fun w =>
    completes (_createNewEntry (_converters w) key (g_get (gobj w) key)) w);
  modify (with_map (fun m => ObservableMap.set m key entry)).

Definition set_googleObject : M unit :=
  modify (with_gmap Ref);;
  keyList ← read (fun w => g_keys (gobj w));
  for_each keyList populate;;
  gmap_addEventListener.

(** [set(key, value)] *)
Definition set (key : string) (v : value) : M value :=
  oldVal ← read (fun w => ObservableMap.get (_map w) key);
  entry ← read (fun w => _createNewGoogleEntry (_converters w) key v);
  gmap_set key entry;;
  modify (with_map (fun m => ObservableMap.set m key v));;
  modify (emit {| IChangedArgs.type := if truthy oldVal then change else add;
                  IChangedArgs.key := key;
                  IChangedArgs.oldValue := oldVal;
                  IChangedArgs.newValue := v |});;
  mret oldVal.

(** [get(key)] *)
Definition get (key : string) : M value :=
  read (fun w => ObservableMap.get (_map w) key).

(** [has(key)] *)
Definition has (key : string) : M bool :=
  read (fun w => ObservableMap.has (_map w) key).

(** [keys()] *)
Definition keys : M (list string) :=
  read (fun w => ObservableMap.keys (_map w)).

(** [values()] *)
Definition values : M (list value) :=
  read (fun w => ObservableMap.values (_map w)).

(** [delete(key)] *)
Definition delete (key : string) : M value :=
  oldVal ← read (fun w => ObservableMap.get (_map w) key);
  modify (with_map (fun m => ObservableMap.delete m key));;
  gmap_delete key;;
  modify (emit {| IChangedArgs.type := remove;
                  IChangedArgs.key := key;
                  IChangedArgs.oldValue := oldVal;
                  IChangedArgs.newValue := undefined |});;
  mret oldVal.

(** [link(map)]: no-op *)
Definition link (map : ObservableMap.t) : M unit := mret tt.

(** [unlink()]: no-op *)
Definition unlink : M unit := mret tt.

(** [linkSet(key, val, shadowVal)] *)
Definition linkSet (key : string) (val shadowVal : value) : M unit :=
  modify (with_map (fun m => ObservableMap.set m key val));;
  gmap_set key (toGoogleSynchronizable shadowVal).

(** [clear()] *)
Definition clear : M unit :=
  keyList ← keys;
  for_each keyList (fun k => delete k;; gmap_delete k).

(** [dispose()]; [clearSignalData(this)] disconnects the receivers of
    [changed]. *)
Definition dispose : M unit := fun w =>
  if _isDisposed w then Return tt w
  else (modify (with_slots 0%nat);;
        gmap_removeAllEventListeners;;
        modify (with_map ObservableMap.clear);;
        modify (with_gmap Null);;
        modify (with_isDisposed true)) w.
End Methods.
End GoogleRealtimeMap.

(** ** Histories *)

(** The mutating methods, and a sequence of calls of them. *)
Inductive Method : Type :=
| MSet (key : string) (v : value)
| MDelete (key : string)
| MClear.

Definition call (tgs : value -> value) (m : Method) : M unit :=
  match m with
  | MSet key v => GoogleRealtimeMap.set tgs key v;; mret tt
  | MDelete key => GoogleRealtimeMap.delete key;; mret tt
  | MClear => GoogleRealtimeMap.clear
  end.

Fixpoint calls (tgs : value -> value) (ms : list Method) : M unit :=
  match ms with
  | [] => mret tt
  | m :: ms' => call tgs m;; calls tgs ms'
  end.

(** The keys a sequence of calls sets. *)
Fixpoint keys_written (ms : list Method) : list string :=
  match ms with
  | [] => []
  | MSet key _ :: ms' => key :: keys_written ms'
  | _ :: ms' => keys_written ms'
  end.

(** What can happen to an adapter and its collaborative map: the calls of
    the host application, the changes collaborators make (which the map
    reports as non-local events), the writes other code of this client
    makes on the same collaborative map, which [get googleObject()] hands
    out (reported as local events), and the service taking another order
    for enumerating the keys. *)
Inductive Op : Type :=
| OpSetGoogleObject
| OpSet (key : string) (v : value)
| OpDelete (key : string)
| OpClear
| OpLinkSet (key : string) (val shadowVal : value)
| OpLink (map : ObservableMap.t)
| OpUnlink
| OpDispose
| CollaboratorSet (key : string) (v : value)
| CollaboratorDelete (key : string)
| LocalSet (key : string) (v : value)
| LocalDelete (key : string)
| ServiceOrder (order : list string).

(** The world an operation leaves, whether the call returned or threw. *)
Definition exec (tgs : value -> value) (op : Op) (w : World) : World :=
  match op with
  | OpSetGoogleObject => world_of (GoogleRealtimeMap.set_googleObject w)
  | OpSet key v => world_of (GoogleRealtimeMap.set tgs key v w)
  | OpDelete key => world_of (GoogleRealtimeMap.delete key w)
  | OpClear => world_of (GoogleRealtimeMap.clear w)
  | OpLinkSet key val shadowVal =>
      world_of (GoogleRealtimeMap.linkSet tgs key val shadowVal w)
  | OpLink map => world_of (GoogleRealtimeMap.link map w)
  | OpUnlink => world_of (GoogleRealtimeMap.unlink w)
  | OpDispose => world_of (GoogleRealtimeMap.dispose w)
  | CollaboratorSet key v => g_set false key v w
  | CollaboratorDelete key => g_delete false key w
  | LocalSet key v => g_set true key v w
  | LocalDelete key => g_delete true key w
  | ServiceOrder order => with_gobj (g_reorder order) w
  end.

Definition run (tgs : value -> value) (ops : list Op) (w : World) : World :=
  fold_left (fun w op => exec tgs op w) ops w.

(** Whether [op], run in [w], sets [k] through the adapter or brings it in
    from the collaborative map: [set] and [linkSet] on [k], a collaborator's
    change of [k], and attaching to a map that holds [k]. *)
Definition touches (k : string) (op : Op) (w : World) : bool :=
  match op with
  | OpSet key _ | OpLinkSet key _ _
  | CollaboratorSet key _ | CollaboratorDelete key => String.eqb key k
  | OpSetGoogleObject =>
      match gentries (gobj w) !! k with Some _ => true | None => false end
  | _ => false
  end.

Fixpoint untouched (tgs : value -> value) (k : string) (ops : list Op) (w : World) : bool :=
  match ops with
  | [] => true
  | op :: ops' => negb (touches k op w) && untouched tgs k ops' (exec tgs op w)
  end.

(** ** What the statements speak of *)

(** The world [set(key, v)] leaves on an attached adapter. *)
Definition after_set (entry : value) (key : string) (v : value) (w : World) : World :=
  emit {| IChangedArgs.type :=
            if truthy (ObservableMap.get (_map w) key) then change else add;
          IChangedArgs.key := key;
          IChangedArgs.oldValue := ObservableMap.get (_map w) key;
          IChangedArgs.newValue := v |}
       (with_map (fun m => ObservableMap.set m key v)
          (with_gobj (fun g => g_store key entry (g_log (GSet key entry) g)) w)).

(** The world [delete(key)] leaves on an attached adapter. *)
Definition after_delete (key : string) (w : World) : World :=
  emit {| IChangedArgs.type := remove;
          IChangedArgs.key := key;
          IChangedArgs.oldValue := ObservableMap.get (_map w) key;
          IChangedArgs.newValue := undefined |}
       (with_gobj (fun g => g_remove key (g_log (GDelete key) g))
          (with_map (fun m => ObservableMap.delete m key) w)).

(** One round of the loop of [clear()]: [this.delete(k)], then
    [this._gmap.delete(k)] once more. *)
Definition clear_step (w : World) (k : string) : World :=
  with_gobj (fun g => g_remove k (g_log (GDelete k) g)) (after_delete k w).

(** The [remove] event of an entry of the cache. *)
Definition remove_event (e : string * value) : IChangedArgs.t :=
  {| IChangedArgs.type := remove;
     IChangedArgs.key := fst e;
     IChangedArgs.oldValue := snd e;
     IChangedArgs.newValue := undefined |}.

(** The two [delete] calls the collaborative map receives for a key. *)
Definition clear_calls (k : string) : list GCall := [GDelete k; GDelete k].

(** The events of a list that carry the key [k]. *)
Definition events_of (k : string) (evs : list IChangedArgs.t) : list IChangedArgs.t :=
  filter (fun e => IChangedArgs.key e = k) evs.

(** The cache's entry for a key, when it has one. *)
Definition cached (m : ObservableMap.t) (k : string) : option value :=
  if ObservableMap.has m k then Some (ObservableMap.get m k) else None.

(** The collaborative map holds, at each key of [ks], the converted image
    of what the cache holds there, and nothing where the cache holds
    nothing. *)
Definition in_sync (tgs : value -> value) (ks : list string) (w : World) : Prop :=
  forall k, k ∈ ks ->
    gentries (gobj w) !! k =
    GoogleRealtimeMap._createNewGoogleEntry tgs (_converters w) k <$> cached (_map w) k.

(** The cache and the collaborative map hold the same keys. *)
Definition same_keys (w : World) : Prop :=
  forall k, ObservableMap.has (_map w) k = true <-> is_Some (gentries (gobj w) !! k).

(** The cache [m'] comes from [m] by deleting keys and setting keys that
    satisfy [P]. *)
Inductive evolves (P : string -> Prop) (m : ObservableMap.t) : ObservableMap.t -> Prop :=
| evolves_refl : evolves P m m
| evolves_set m' key v :
    evolves P m m' -> P key -> evolves P m (ObservableMap.set m' key v)
| evolves_delete m' key :
    evolves P m m' -> evolves P m (ObservableMap.delete m' key).

(** The classification in the spec's words: by whether the old and the new
    value are present, a value being absent when it is [undefined] or
    [null]. *)
Definition present (v : value) : bool :=
  match v with
  | undefined | null => false
  | _ => true
  end.

Definition changeType_by_presence (oldValue newValue : value) : ChangeType :=
  if present oldValue && present newValue then change
  else if present oldValue && negb (present newValue) then remove
  else add.

(** ** Worlds to run the methods in *)

(** Collaborative maps: an empty one, one that holds ["a"] with the number
    0, and one with two entries. *)
Definition g_empty : CollaborativeMap :=
  {| gentries := ∅; gorder := []; glisteners := 0; gcalls := [] |}.

Definition g_zero : CollaborativeMap :=
  {| gentries := {["a" := JNum 0]}; gorder := []; glisteners := 0; gcalls := [] |}.

Definition g_two : CollaborativeMap :=
  {| gentries := {["a" := JNum 1; "b" := JStr "x"]}; gorder := [];
     glisteners := 0; gcalls := [] |}.

(** A new adapter with its [googleObject] set. *)
Definition attach (g : CollaborativeMap)
    (converters : gmap string IRealtimeConverter) : World :=
  world_of (GoogleRealtimeMap.set_googleObject (constructor g converters)).

Definition w_empty : World := attach g_empty ∅.
Definition w_zero : World := attach g_zero ∅.
Definition w_two : World := attach g_two ∅.

(** A converter that sends every value to the number 7, and an adapter
    attached to an empty collaborative map with that converter for ["a"]. *)
Definition conv7 : IRealtimeConverter :=
  {| conv_from := fun x => x; conv_to := fun _ => JNum 7 |}.

Definition w_conv : World := attach g_empty {["a" := conv7]}.

(** A converter whose [to] image has a [link] method, and a collaborative
    map that holds a collaborative list at ["a"]. *)
Definition conv_link : IRealtimeConverter :=
  {| conv_from := fun _ => JLinkable 0; conv_to := fun x => x |}.

Definition g_list : CollaborativeMap :=
  {| gentries := {["a" := JObject (Some "List") 1]}; gorder := [];
     glisteners := 0; gcalls := [] |}.

(** An adapter attached to the map that holds ["a"], after other code of
    the client deleted ["a"] from the collaborative map and set ["b"]
    there: the listener hears two local events and leaves the cache
    alone. *)
Definition w_diverged : World :=
  run (fun x => x) [OpSetGoogleObject; LocalDelete "a"; LocalSet "b" (JNum 1)]
      (constructor g_zero ∅).

(** The same adapter after other code of the client set ["b"] only. *)
Definition w_behind : World :=
  run (fun x => x) [OpSetGoogleObject; LocalSet "b" (JNum 1)] (constructor g_zero ∅).

(** ** Histories without foreign local writes *)

(** No operation of the history is a [set] that other code of the client
    makes on the collaborative map behind the adapter's back. *)
Definition no_local_set (ops : list Op) : bool :=
  forallb (fun op => match op with LocalSet _ _ => false | _ => true end) ops.

(** The adapter's view of the collaborative map is complete: while the
    handle is attached a listener is registered and the cache has every
    key the map holds. *)
Definition covers (w : World) : Prop :=
  _gmap w = Ref ->
  (1 <= glisteners (gobj w))%nat /\
  forall k, is_Some (gentries (gobj w) !! k) -> ObservableMap.has (_map w) k = true.

(** ** The listener and the setter's loop in closed form *)

(** What the listener emits for an event. *)
Definition args_of (evt : ValueChangedEvent.t) : IChangedArgs.t :=
  {| IChangedArgs.type :=
       changeType (ValueChangedEvent.oldValue evt) (ValueChangedEvent.newValue evt);
     IChangedArgs.key := ValueChangedEvent.property evt;
     IChangedArgs.oldValue := ValueChangedEvent.oldValue evt;
     IChangedArgs.newValue := ValueChangedEvent.newValue evt |}.

(** The world the listener leaves for a non-local event whose new value
    reconstructs to [entry]. *)
Definition after_event (evt : ValueChangedEvent.t) (entry : value) (w : World) : World :=
  emit (args_of evt)
       (with_map (fun m => ObservableMap.set m (ValueChangedEvent.property evt) entry) w).

(** The cache the loop of the setter leaves, and whether it came to its
    end: it stops at the first key whose entry does not reconstruct. *)
Fixpoint fill (converters : gmap string IRealtimeConverter) (g : CollaborativeMap)
    (ks : list string) (m : ObservableMap.t) : ObservableMap.t * bool :=
  match ks with
  | [] => (m, true)
  | k :: ks' =>
      match _createNewEntry converters k (g_get g k) with
      | Some entry => fill converters g ks' (ObservableMap.set m k entry)
      | None => (m, false)
      end
  end.

(** The converters keep to their contract: the [to] image of what [from]
    returns has a [link] method. *)
Definition well_linked (converters : gmap string IRealtimeConverter) : Prop :=
  forall k c vec,
    converters !! k = Some c -> has_link (conv_to c (conv_from c vec)) = true.

(** * Properties *)

(** ** The cache *)

Section ObservableMapFacts.
Import ObservableMap.
Implicit Types (m : ObservableMap.t) (k : string) (v : value).

Lemma get_set_eq m k v : get (set m k v) k = v.
Proof.
  induction m as [|[k' v'] m IH]; simpl.
  - now rewrite String.eqb_refl.
  - destruct (String.eqb_spec k k') as [->|Hne]; simpl.
    + now rewrite String.eqb_refl.
    + apply String.eqb_neq in Hne. now rewrite Hne.
Qed.

Lemma has_set_eq m k v : has (set m k v) k = true.
Proof.
  induction m as [|[k' v'] m IH]; simpl.
  - now rewrite String.eqb_refl.
  - destruct (String.eqb_spec k k') as [->|Hne]; simpl.
    + now rewrite String.eqb_refl.
    + apply String.eqb_neq in Hne. now rewrite Hne.
Qed.

Lemma get_set_ne m k k' v : k <> k' -> get (set m k' v) k = get m k.
Proof.
  intros Hne. apply String.eqb_neq in Hne.
  induction m as [|[k0 v0] m IH]; simpl.
  - now rewrite Hne.
  - destruct (String.eqb_spec k' k0) as [->|?]; simpl.
    + now rewrite Hne.
    + now rewrite IH.
Qed.

Lemma has_set_ne m k k' v : k <> k' -> has (set m k' v) k = has m k.
Proof.
  intros Hne. apply String.eqb_neq in Hne.
  induction m as [|[k0 v0] m IH]; simpl.
  - now rewrite Hne.
  - destruct (String.eqb_spec k' k0) as [->|?]; simpl.
    + now rewrite Hne.
    + now rewrite IH.
Qed.

Lemma has_delete_eq m k : has (delete m k) k = false.
Proof.
  induction m as [|[k' v'] m IH]; simpl; [reflexivity|].
  destruct (String.eqb k k') eqn:E; simpl; [assumption|].
  now rewrite E.
Qed.

Lemma get_delete_eq m k : get (delete m k) k = undefined.
Proof.
  induction m as [|[k' v'] m IH]; simpl; [reflexivity|].
  destruct (String.eqb k k') eqn:E; simpl; [assumption|].
  now rewrite E.
Qed.

Lemma has_delete_ne m k k' : k <> k' -> has (delete m k') k = has m k.
Proof.
  intros Hne. apply String.eqb_neq in Hne.
  induction m as [|[k0 v0] m IH]; simpl; [reflexivity|].
  destruct (String.eqb_spec k' k0) as [->|?]; simpl.
  - now rewrite Hne.
  - now rewrite IH.
Qed.

Lemma get_delete_ne m k k' : k <> k' -> get (delete m k') k = get m k.
Proof.
  intros Hne. apply String.eqb_neq in Hne.
  induction m as [|[k0 v0] m IH]; simpl; [reflexivity|].
  destruct (String.eqb_spec k' k0) as [->|?]; simpl.
  - now rewrite Hne.
  - now rewrite IH.
Qed.

(** An absent key reads as [undefined]. *)
Lemma get_absent m k : has m k = false -> get m k = undefined.
Proof.
  induction m as [|[k' v'] m IH]; simpl; [reflexivity|].
  destruct (String.eqb k k'); [discriminate | exact IH].
Qed.

Lemma has_keys m k : has m k = true <-> k ∈ keys m.
Proof.
  unfold keys. induction m as [|[k' v'] m IH]; simpl.
  - split; [discriminate | intros H; inversion H].
  - rewrite elem_of_cons. destruct (String.eqb_spec k k') as [->|Hne].
    + split; auto.
    + rewrite IH. split; [auto | intros [?|?]; [contradiction | assumption]].
Qed.

Lemma has_false_keys m k : has m k = false <-> k ∉ keys m.
Proof.
  rewrite <- has_keys. destruct (has m k); split; intros; congruence.
Qed.

(** Deleting an absent key leaves the cache as it is. *)
Lemma delete_absent m k : has m k = false -> delete m k = m.
Proof.
  induction m as [|[k' v'] m IH]; simpl; [reflexivity|].
  destruct (String.eqb k k'); [discriminate|].
  intros H. now rewrite IH.
Qed.

Lemma keys_delete m k : keys (delete m k) = filter (fun k' => k' <> k) (keys m).
Proof.
  unfold keys. induction m as [|[k' v'] m IH]; simpl; [reflexivity|].
  rewrite filter_cons. simpl.
  destruct (String.eqb_spec k k') as [->|Hne].
  - rewrite decide_False by auto. exact IH.
  - rewrite decide_True by auto. simpl. now rewrite IH.
Qed.

Lemma keys_set m k v :
  keys (set m k v) = if has m k then keys m else (keys m ++ [k])%list.
Proof.
  unfold keys. induction m as [|[k' v'] m IH]; simpl; [reflexivity|].
  destruct (String.eqb_spec k k') as [->|Hne]; simpl; [reflexivity|].
  rewrite IH. now destruct (has m k).
Qed.

Lemma wf_nil : wf [].
Proof. apply NoDup_nil_2. Qed.

Lemma wf_set m k v : wf m -> wf (set m k v).
Proof.
  unfold wf. intros Hm. rewrite keys_set.
  destruct (has m k) eqn:E; [assumption|].
  apply NoDup_app. split; [assumption|]. split.
  - intros x Hx Hk. apply list_elem_of_singleton in Hk as ->.
    apply has_keys in Hx. congruence.
  - apply NoDup_singleton.
Qed.

Lemma wf_delete m k : wf m -> wf (delete m k).
Proof.
  unfold wf. intros Hm. rewrite keys_delete. now apply NoDup_filter.
Qed.

Lemma wf_tail k v m : wf ((k, v) :: m) -> has m k = false /\ wf m.
Proof.
  unfold wf, keys. simpl. intros H. apply NoDup_cons in H as [Hk Hm].
  split; [|assumption]. now apply has_false_keys.
Qed.

(** Deleting every key, one by one, empties the cache. *)
Lemma clear_empty m : clear m = [].
Proof.
  unfold clear.
  assert (H : forall ks m', (forall k, k ∈ keys m' -> k ∈ ks) ->
                            fold_left delete ks m' = []).
  { induction ks as [|k ks IH]; intros m' Hsub.
    - destruct m' as [|[k' v'] m']; [reflexivity|].
      exfalso. specialize (Hsub k'). unfold keys in Hsub. simpl in Hsub.
      assert (Hin : k' ∈ @nil string) by (apply Hsub; left).
      inversion Hin.
    - simpl. apply IH. intros k0 Hk0.
      rewrite keys_delete in Hk0. apply list_elem_of_filter in Hk0 as [Hne Hin].
      apply Hsub in Hin. apply elem_of_cons in Hin as [->|?]; [contradiction|assumption]. }
  apply H. auto.
Qed.
End ObservableMapFacts.

(** ** Events the adapter raised itself *)

Lemma listener_local evt w :
  ValueChangedEvent.isLocal evt = true -> listener evt w = Return tt w.
Proof. intros H. unfold listener. now rewrite H. Qed.

Lemma listener_nonlocal evt w :
  ValueChangedEvent.isLocal evt = false ->
  listener evt w =
    match _createNewEntry (_converters w) (ValueChangedEvent.property evt)
                          (ValueChangedEvent.newValue evt) with
    | Some entry => Return tt (after_event evt entry w)
    | None => Throw w
    end.
Proof.
  intros H. unfold listener. rewrite H. simpl.
  unfold mbind, M_bind, completes.
  now destruct (_createNewEntry _ _ _).
Qed.

Lemma dispatch_local evt w :
  ValueChangedEvent.isLocal evt = true -> dispatch evt w = w.
Proof.
  intros H. unfold dispatch.
  induction (glisteners (gobj w)) as [|n IH]; simpl; [reflexivity|].
  rewrite IH. now rewrite listener_local.
Qed.

Lemma g_set_local k v w : g_set true k v w = with_gobj (g_store k v) w.
Proof. unfold g_set. now apply dispatch_local. Qed.

Lemma g_delete_local k w : g_delete true k w = with_gobj (g_remove k) w.
Proof. unfold g_delete. now apply dispatch_local. Qed.

(** What the calls on an attached [_gmap] leave. *)
Lemma gmap_set_attached k v w :
  _gmap w = Ref ->
  gmap_set k v w = Return tt (with_gobj (fun g => g_store k v (g_log (GSet k v) g)) w).
Proof.
  intros H. unfold gmap_set, on_gmap, modify. rewrite H.
  now rewrite g_set_local.
Qed.

Lemma gmap_delete_attached k w :
  _gmap w = Ref ->
  gmap_delete k w = Return tt (with_gobj (fun g => g_remove k (g_log (GDelete k) g)) w).
Proof.
  intros H. unfold gmap_delete, on_gmap, modify. rewrite H.
  now rewrite g_delete_local.
Qed.

(** ** What set, delete and clear leave on an attached adapter *)

Lemma set_attached tgs key v w :
  _gmap w = Ref ->
  GoogleRealtimeMap.set tgs key v w =
    Return (ObservableMap.get (_map w) key)
           (after_set (GoogleRealtimeMap._createNewGoogleEntry tgs (_converters w) key v)
                      key v w).
Proof.
  intros H. unfold GoogleRealtimeMap.set, mbind, M_bind, read, mret, M_ret.
  rewrite (gmap_set_attached _ _ _ H). reflexivity.
Qed.

Lemma delete_attached key w :
  _gmap w = Ref ->
  GoogleRealtimeMap.delete key w =
    Return (ObservableMap.get (_map w) key) (after_delete key w).
Proof.
  intros H. unfold GoogleRealtimeMap.delete, mbind, M_bind, read, mret, M_ret.
  unfold modify at 1.
  rewrite gmap_delete_attached by exact H. reflexivity.
Qed.

Lemma clear_attached w :
  _gmap w = Ref ->
  GoogleRealtimeMap.clear w =
    Return tt (fold_left clear_step (ObservableMap.keys (_map w)) w).
Proof.
  intros Hg. unfold GoogleRealtimeMap.clear, GoogleRealtimeMap.keys.
  unfold mbind at 1, M_bind at 1, read.
  generalize (ObservableMap.keys (_map w)). intros ks.
  revert w Hg. induction ks as [|k ks IH]; intros w Hg; simpl; [reflexivity|].
  unfold mbind at 1, M_bind at 1. unfold mbind at 1, M_bind at 1.
  rewrite (delete_attached _ _ Hg).
  rewrite gmap_delete_attached by exact Hg.
  apply IH. exact Hg.
Qed.

(** ** set *)

(** C1, as amended.  On an attached adapter [set(key, v)] returns the value
    the cache held for [key] ([undefined] when the key was absent), stores
    [v] in the cache and [_createNewGoogleEntry(key, v)] in the
    collaborative map through one [set] call, and emits exactly one event,
    tagged [change] when the previous cached value is truthy and [add]
    otherwise; afterwards [get(key)] is [v] and [has(key)] is true. *)
Theorem set_spec (tgs : value -> value) (w : World) (key : string) (v : value) :
  _gmap w = Ref ->
  let oldVal := ObservableMap.get (_map w) key in
  let entry := GoogleRealtimeMap._createNewGoogleEntry tgs (_converters w) key v in
  exists w',
    GoogleRealtimeMap.set tgs key v w = Return oldVal w' /\
    (ObservableMap.has (_map w) key = false -> oldVal = undefined) /\
    _map w' = ObservableMap.set (_map w) key v /\
    gentries (gobj w') = <[key := entry]> (gentries (gobj w)) /\
    gcalls (gobj w') = (gcalls (gobj w) ++ [GSet key entry])%list /\
    changed w' =
      (changed w ++
       [{| IChangedArgs.type := if truthy oldVal then change else add;
           IChangedArgs.key := key;
           IChangedArgs.oldValue := oldVal;
           IChangedArgs.newValue := v |}])%list /\
    GoogleRealtimeMap.get key w' = Return v w' /\
    GoogleRealtimeMap.has key w' = Return true w'.
Proof.
  intros Hg oldVal entry.
  exists (after_set entry key v w).
  split; [now apply set_attached|].
  split; [apply get_absent|].
  repeat split.
  - unfold GoogleRealtimeMap.get, read. simpl. now rewrite get_set_eq.
  - unfold GoogleRealtimeMap.has, read. simpl. now rewrite has_set_eq.
Qed.

Lemma set_spec_witness :
  _gmap w_empty = Ref /\
  exists w',
    GoogleRealtimeMap.set (fun x => x) "b" (JNum 1) w_empty = Return undefined w' /\
    GoogleRealtimeMap.get "b" w' = Return (JNum 1) w' /\
    GoogleRealtimeMap.has "b" w' = Return true w'.
Proof.
  split; [reflexivity|].
  destruct (set_spec (fun x => x) w_empty "b" (JNum 1) eq_refl)
    as (w' & Hset & _ & _ & _ & _ & _ & Hget & Hhas).
  exists w'. repeat split; assumption.
Defined.

(** C1 as stated fails where the key is present with a falsy value: the
    collaborative map holds ["a"] with 0, the attached adapter has the key,
    and [set("a", 1)] emits an event tagged [add]. *)
Lemma set_present_key_tagged_add :
  GoogleRealtimeMap.has "a" w_zero = Return true w_zero /\
  forall tgs : value -> value, exists w',
    GoogleRealtimeMap.set tgs "a" (JNum 1) w_zero = Return (JNum 0) w' /\
    changed w' = [{| IChangedArgs.type := add;
                     IChangedArgs.key := "a";
                     IChangedArgs.oldValue := JNum 0;
                     IChangedArgs.newValue := JNum 1 |}].
Proof.
  split; [reflexivity|].
  intros tgs. eexists. split.
  - apply set_attached. reflexivity.
  - reflexivity.
Qed.

(** ** The VALUE_CHANGED listener *)

(** C2, as amended.  A local event makes the listener return with the
    world as it is.  For a non-local event the listener first reconstructs
    the new value: when [_createNewEntry] throws (a collaborative list at a
    key whose converter image has no [link] method) so does the listener,
    with no cache update and no emission.  Otherwise it returns, leaves
    every other key and the collaborative map alone, and emits exactly one
    event, tagged by truthiness: [change] when old and new value are both
    truthy, [remove] when only the old one is, [add] otherwise.  Unless the
    event is tagged [remove], [get] then returns the reconstructed value,
    the cache has the key, and a key it did not have is appended to
    [keys()]. *)
Theorem listener_spec (w : World) (p : string) (old new : value) (loc : bool) :
  let evt := {| ValueChangedEvent.property := p;
                ValueChangedEvent.oldValue := old;
                ValueChangedEvent.newValue := new;
                ValueChangedEvent.isLocal := loc |} in
  if loc then listener evt w = Return tt w
  else
    match _createNewEntry (_converters w) p new with
    | None => listener evt w = Throw w
    | Some entry =>
        exists w',
          listener evt w = Return tt w' /\
          (changeType old new <> remove ->
           ObservableMap.get (_map w') p = entry /\
           ObservableMap.has (_map w') p = true /\
           (ObservableMap.has (_map w) p = false ->
            ObservableMap.keys (_map w') = (ObservableMap.keys (_map w) ++ [p])%list)) /\
          (forall k, k <> p ->
             ObservableMap.get (_map w') k = ObservableMap.get (_map w) k /\
             ObservableMap.has (_map w') k = ObservableMap.has (_map w) k) /\
          changed w' =
            (changed w ++ [{| IChangedArgs.type := changeType old new;
                              IChangedArgs.key := p;
                              IChangedArgs.oldValue := old;
                              IChangedArgs.newValue := new |}])%list /\
          changeType old new =
            (if truthy old then if truthy new then change else remove else add) /\
          gobj w' = gobj w
    end.
Proof.
  intros evt. destruct loc; [reflexivity|].
  pose proof (listener_nonlocal evt w eq_refl) as Hl. simpl in Hl.
  destruct (_createNewEntry (_converters w) p new) as [entry|]; [|exact Hl].
  exists (after_event evt entry w). split; [exact Hl|].
  split.
  { intros _. simpl. split; [apply get_set_eq|]. split; [apply has_set_eq|].
    intros Hno. rewrite keys_set. now rewrite Hno. }
  split; [intros k Hk; split; [now apply get_set_ne | now apply has_set_ne]|].
  split; [reflexivity|].
  split; [unfold changeType; now destruct (truthy old), (truthy new) | reflexivity].
Qed.

Lemma listener_spec_witness :
  exists w',
    listener {| ValueChangedEvent.property := "b";
                ValueChangedEvent.oldValue := null;
                ValueChangedEvent.newValue := JObject (Some "Map") 4;
                ValueChangedEvent.isLocal := false |} w_empty = Return tt w' /\
    ObservableMap.get (_map w') "b" = NewGoogleRealtimeMap (JObject (Some "Map") 4).
Proof.
  destruct (listener_spec w_empty "b" null (JObject (Some "Map") 4) false)
    as (w' & Hl & Hacq & _).
  exists w'. split; [exact Hl|].
  apply Hacq. discriminate.
Defined.

(** C2 as stated fails on the classification: a collaborator replaces the
    0 held at ["a"] by 5, both values are present, and the listener emits an
    event tagged [add]. *)
Lemma listener_present_values_tagged_add :
  changeType_by_presence (JNum 0) (JNum 5) = change /\
  changed (g_set false "a" (JNum 5) w_zero)
  = [{| IChangedArgs.type := add;
        IChangedArgs.key := "a";
        IChangedArgs.oldValue := JNum 0;
        IChangedArgs.newValue := JNum 5 |}] /\
  changed (world_of
             (listener {| ValueChangedEvent.property := "a";
                          ValueChangedEvent.oldValue := JNum 0;
                          ValueChangedEvent.newValue := JNum 5;
                          ValueChangedEvent.isLocal := false |} w_zero))
  = [{| IChangedArgs.type := add;
        IChangedArgs.key := "a";
        IChangedArgs.oldValue := JNum 0;
        IChangedArgs.newValue := JNum 5 |}].
Proof. repeat split. Qed.

(** ** The cache and the collaborative map after local writes *)

Lemma cached_set_eq m k v : cached (ObservableMap.set m k v) k = Some v.
Proof. unfold cached. now rewrite has_set_eq, get_set_eq. Qed.

Lemma cached_set_ne m k k' v :
  k <> k' -> cached (ObservableMap.set m k' v) k = cached m k.
Proof. intros H. unfold cached. now rewrite has_set_ne, get_set_ne. Qed.

Lemma cached_delete_eq m k : cached (ObservableMap.delete m k) k = None.
Proof. unfold cached. now rewrite has_delete_eq. Qed.

Lemma cached_delete_ne m k k' :
  k <> k' -> cached (ObservableMap.delete m k') k = cached m k.
Proof. intros H. unfold cached. now rewrite has_delete_ne, get_delete_ne. Qed.

Lemma set_in_sync tgs ks key v w :
  in_sync tgs ks w ->
  in_sync tgs (key :: ks)
    (after_set (GoogleRealtimeMap._createNewGoogleEntry tgs (_converters w) key v) key v w).
Proof.
  intros Hs k Hk. simpl.
  destruct (decide (k = key)) as [->|Hne].
  - now rewrite lookup_insert_eq, cached_set_eq.
  - rewrite lookup_insert_ne by congruence. rewrite cached_set_ne by exact Hne.
    apply Hs. apply elem_of_cons in Hk as [?|?]; [contradiction | assumption].
Qed.

Lemma delete_in_sync tgs ks key w :
  in_sync tgs ks w -> in_sync tgs ks (after_delete key w).
Proof.
  intros Hs k Hk. simpl.
  destruct (decide (k = key)) as [->|Hne].
  - now rewrite lookup_delete_eq, cached_delete_eq.
  - rewrite lookup_delete_ne by congruence. rewrite cached_delete_ne by exact Hne.
    now apply Hs.
Qed.

Lemma clear_step_in_sync tgs ks key w :
  in_sync tgs ks w -> in_sync tgs ks (clear_step w key).
Proof.
  intros Hs k Hk. pose proof (delete_in_sync tgs ks key w Hs k Hk) as Hd.
  simpl in *. destruct (decide (k = key)) as [->|Hne].
  - now rewrite lookup_delete_eq, cached_delete_eq.
  - rewrite lookup_delete_ne by congruence. exact Hd.
Qed.

Lemma clear_in_sync tgs ks keyList w :
  in_sync tgs ks w -> in_sync tgs ks (fold_left clear_step keyList w).
Proof.
  revert w. induction keyList as [|k keyList IH]; intros w Hs; simpl; [exact Hs|].
  apply IH. now apply clear_step_in_sync.
Qed.

Lemma fold_clear_step_fields keyList w :
  _gmap (fold_left clear_step keyList w) = _gmap w /\
  _converters (fold_left clear_step keyList w) = _converters w.
Proof.
  revert w. induction keyList as [|k keyList IH]; intros w; simpl; [auto|].
  destruct (IH (clear_step w k)) as [-> ->]. auto.
Qed.

Lemma in_sync_weaken tgs ks ks' w :
  (forall k, k ∈ ks' -> k ∈ ks) -> in_sync tgs ks w -> in_sync tgs ks' w.
Proof. intros Hsub Hs k Hk. apply Hs. now apply Hsub. Qed.

(** A sequence of calls on an attached adapter returns, and keeps in sync
    the keys that were in sync before and those it sets. *)
Lemma calls_in_sync tgs ms : forall ks w,
  _gmap w = Ref -> in_sync tgs ks w ->
  exists w', calls tgs ms w = Return tt w' /\ _gmap w' = Ref /\
             _converters w' = _converters w /\
             in_sync tgs (keys_written ms ++ ks)%list w'.
Proof.
  induction ms as [|m ms IH]; intros ks w Hg Hs.
  - exists w. simpl. auto.
  - destruct m as [key v|key|]; simpl.
    + destruct (IH (key :: ks)
                  (after_set (GoogleRealtimeMap._createNewGoogleEntry tgs (_converters w) key v)
                             key v w)) as (w' & Hc & Hg' & Hcv & Hs').
      { exact Hg. } { now apply set_in_sync. }
      exists w'. split; [|split; [exact Hg'|split; [exact Hcv|]]].
      * unfold mbind at 1, M_bind at 1. unfold mbind at 1, M_bind at 1.
        rewrite (set_attached _ _ _ _ Hg). exact Hc.
      * eapply in_sync_weaken; [|exact Hs'].
        intros k. rewrite !elem_of_cons, !elem_of_app, elem_of_cons. tauto.
    + destruct (IH ks (after_delete key w)) as (w' & Hc & Hg' & Hcv & Hs').
      { exact Hg. } { now apply delete_in_sync. }
      exists w'. split; [|split; [exact Hg' | split; [exact Hcv | exact Hs']]].
      unfold mbind at 1, M_bind at 1. unfold mbind at 1, M_bind at 1.
      rewrite (delete_attached _ _ Hg). exact Hc.
    + destruct (fold_clear_step_fields (ObservableMap.keys (_map w)) w) as [Hfg Hfc].
      destruct (IH ks (fold_left clear_step (ObservableMap.keys (_map w)) w))
        as (w' & Hc & Hg' & Hcv & Hs').
      { now rewrite Hfg. } { now apply clear_in_sync. }
      exists w'. split; [|split; [exact Hg' | split; [congruence | exact Hs']]].
      unfold mbind at 1, M_bind at 1.
      rewrite (clear_attached _ Hg). exact Hc.
Qed.

(** C3, as amended.  Whatever sequence of [set], [delete] and [clear] is
    called on an attached adapter, every call returns, and afterwards, for
    every key the sequence has set, the collaborative map holds the
    [_createNewGoogleEntry] image of the value the cache holds, and holds
    nothing when the cache holds nothing; for a key with no converter the
    two entries are equal. *)
Theorem calls_keep_set_keys_in_sync (tgs : value -> value)
    (ms : list Method) (w : World) :
  _gmap w = Ref ->
  exists w',
    calls tgs ms w = Return tt w' /\
    forall k, k ∈ keys_written ms ->
      gentries (gobj w') !! k =
        GoogleRealtimeMap._createNewGoogleEntry tgs (_converters w) k
          <$> cached (_map w') k /\
      (_converters w !! k = None ->
       gentries (gobj w') !! k = cached (_map w') k).
Proof.
  intros Hg.
  destruct (calls_in_sync tgs ms [] w Hg) as (w' & Hc & _ & Hcv & Hs).
  { intros k Hk. inversion Hk. }
  exists w'. split; [exact Hc|].
  intros k Hk.
  assert (Hk' : k ∈ (keys_written ms ++ [])%list) by (apply elem_of_app; auto).
  specialize (Hs k Hk'). rewrite Hcv in Hs.
  split; [exact Hs|].
  intros Hnone. rewrite Hs.
  unfold GoogleRealtimeMap._createNewGoogleEntry. rewrite Hnone.
  now destruct (cached (_map w') k).
Qed.

Lemma calls_keep_set_keys_in_sync_witness :
  _gmap w_zero = Ref /\
  exists w',
    calls (fun x => x) [MSet "b" (JNum 2); MClear; MSet "a" (JNum 3); MDelete "b"] w_zero
      = Return tt w' /\
    gentries (gobj w') !! "a" = cached (_map w') "a".
Proof.
  split; [reflexivity|].
  destruct (calls_keep_set_keys_in_sync (fun x => x)
              [MSet "b" (JNum 2); MClear; MSet "a" (JNum 3); MDelete "b"] w_zero eq_refl)
    as (w' & Hc & Hs).
  exists w'. split; [exact Hc|].
  apply (Hs "a"); [|reflexivity].
  simpl. apply elem_of_cons. right. apply elem_of_cons. now left.
Defined.

(** C3 as stated fails for a key with a converter, whatever
    [toGoogleSynchronizable] does: after [set("a", v)] the collaborative
    map holds the image of 7, the same for every [v], while the cache holds
    [v]. *)
Lemma converted_entry_differs :
  ~ exists tgs : value -> value, forall v : value, exists w',
      calls tgs [MSet "a" v] w_conv = Return tt w' /\
      gentries (gobj w') !! "a" = cached (_map w') "a".
Proof.
  intros [tgs H].
  assert (Hv : forall v, Some (tgs (JNum 7)) = Some v).
  { intros v. destruct (H v) as (w' & Hc & He).
    simpl in Hc. unfold mbind at 1, M_bind at 1 in Hc.
    unfold mbind at 1, M_bind at 1 in Hc.
    rewrite (set_attached tgs "a" v w_conv eq_refl) in Hc.
    unfold mret, M_ret in Hc. injection Hc as <-.
    simpl in He. rewrite lookup_insert_eq, cached_set_eq in He. exact He. }
  pose proof (Hv (JNum 0)) as H0. pose proof (Hv (JNum 1)) as H1.
  congruence.
Qed.

(** ** delete *)

(** C4.  On an attached adapter [delete(key)] returns the value the cache
    held for [key] ([undefined] when it held none), removes the key from
    the cache and from the collaborative map, and emits exactly one event,
    tagged [remove], with that value as [oldValue] and [undefined] as
    [newValue]; afterwards [has(key)] is false. *)
Theorem delete_spec (w : World) (key : string) :
  _gmap w = Ref ->
  let oldVal := ObservableMap.get (_map w) key in
  exists w',
    GoogleRealtimeMap.delete key w = Return oldVal w' /\
    (ObservableMap.has (_map w) key = false -> oldVal = undefined) /\
    _map w' = ObservableMap.delete (_map w) key /\
    (key ∉ ObservableMap.keys (_map w')) /\
    gentries (gobj w') = delete key (gentries (gobj w)) /\
    gentries (gobj w') !! key = None /\
    changed w' =
      (changed w ++ [{| IChangedArgs.type := remove;
                        IChangedArgs.key := key;
                        IChangedArgs.oldValue := oldVal;
                        IChangedArgs.newValue := undefined |}])%list /\
    GoogleRealtimeMap.has key w' = Return false w' /\
    GoogleRealtimeMap.get key w' = Return undefined w'.
Proof.
  intros Hg oldVal. exists (after_delete key w).
  split; [now apply delete_attached|].
  split; [apply get_absent|].
  split; [reflexivity|].
  split; [apply has_false_keys; simpl; apply has_delete_eq|].
  split; [reflexivity|].
  split; [simpl; apply lookup_delete_eq|].
  split; [reflexivity|].
  split.
  - unfold GoogleRealtimeMap.has, read. simpl. now rewrite has_delete_eq.
  - unfold GoogleRealtimeMap.get, read. simpl. now rewrite get_delete_eq.
Qed.

Lemma delete_spec_witness :
  _gmap w_zero = Ref /\
  exists w',
    GoogleRealtimeMap.delete "a" w_zero = Return (JNum 0) w' /\
    GoogleRealtimeMap.has "a" w' = Return false w'.
Proof.
  split; [reflexivity|].
  destruct (delete_spec w_zero "a" eq_refl)
    as (w' & Hd & _ & _ & _ & _ & _ & _ & Hhas & _).
  exists w'. split; assumption.
Defined.

(** C10.  [delete(key)] on an attached adapter whose cache does not have
    the key takes no other path: it returns [undefined], leaves the cache
    as it is, still calls [delete] on the collaborative map, and still
    emits one [remove] event, whose [oldValue] and [newValue] are both
    [undefined]. *)
Theorem delete_absent_key (w : World) (key : string) :
  _gmap w = Ref ->
  ObservableMap.has (_map w) key = false ->
  exists w',
    GoogleRealtimeMap.delete key w = Return undefined w' /\
    _map w' = _map w /\
    gcalls (gobj w') = (gcalls (gobj w) ++ [GDelete key])%list /\
    changed w' =
      (changed w ++ [{| IChangedArgs.type := remove;
                        IChangedArgs.key := key;
                        IChangedArgs.oldValue := undefined;
                        IChangedArgs.newValue := undefined |}])%list.
Proof.
  intros Hg Hno. exists (after_delete key w).
  rewrite (delete_attached _ _ Hg).
  unfold after_delete. rewrite (get_absent _ _ Hno).
  split; [reflexivity|].
  split; [simpl; now apply delete_absent|].
  split; reflexivity.
Qed.

Lemma delete_absent_key_witness :
  _gmap w_zero = Ref /\
  ObservableMap.has (_map w_zero) "b" = false /\
  exists w',
    GoogleRealtimeMap.delete "b" w_zero = Return undefined w' /\
    gcalls (gobj w') = [GAddEventListener; GDelete "b"] /\
    changed w' = [{| IChangedArgs.type := remove;
                     IChangedArgs.key := "b";
                     IChangedArgs.oldValue := undefined;
                     IChangedArgs.newValue := undefined |}].
Proof.
  split; [reflexivity|]. split; [reflexivity|].
  destruct (delete_absent_key w_zero "b" eq_refl eq_refl)
    as (w' & Hd & _ & Hcalls & Hch).
  exists w'. repeat split; assumption.
Defined.

(** ** clear *)

Lemma fold_clear_step_spec m : forall w,
  _map w = m -> ObservableMap.wf m ->
  let w' := fold_left clear_step (ObservableMap.keys m) w in
  _map w' = [] /\
  changed w' = (changed w ++ map remove_event m)%list /\
  gcalls (gobj w') = (gcalls (gobj w) ++ flat_map clear_calls (ObservableMap.keys m))%list /\
  forall k, gentries (gobj w') !! k =
            if ObservableMap.has m k then None else gentries (gobj w) !! k.
Proof.
  induction m as [|[k v] m IH]; intros w Hm Hwf; simpl.
  - rewrite !app_nil_r. auto.
  - apply wf_tail in Hwf as [Hk Hwf].
    assert (Hm1 : _map (clear_step w k) = m).
    { simpl. rewrite Hm. simpl. rewrite String.eqb_refl. now apply delete_absent. }
    destruct (IH (clear_step w k) Hm1 Hwf) as (Hmap & Hch & Hcalls & Hent).
    split; [exact Hmap|].
    split; [|split].
    + rewrite Hch. simpl. rewrite Hm. simpl. rewrite String.eqb_refl.
      now rewrite <- app_assoc.
    + rewrite Hcalls. simpl. now rewrite <- !app_assoc.
    + intros x. rewrite Hent. simpl.
      destruct (String.eqb_spec x k) as [->|Hne].
      * rewrite Hk. now rewrite lookup_delete_eq.
      * destruct (ObservableMap.has m x); [reflexivity|].
        now rewrite !lookup_delete_ne by congruence.
Qed.

Lemma events_of_remove_events m k :
  ObservableMap.wf m ->
  events_of k (map remove_event m) =
    if ObservableMap.has m k then [remove_event (k, ObservableMap.get m k)] else [].
Proof.
  unfold events_of. induction m as [|[k' v'] m IH]; intros Hwf; simpl; [reflexivity|].
  apply wf_tail in Hwf as [Hk' Hwf]. rewrite filter_cons. simpl.
  destruct (String.eqb_spec k k') as [->|Hne].
  - rewrite decide_True by reflexivity. rewrite (IH Hwf), Hk'. reflexivity.
  - rewrite decide_False by congruence. now apply IH.
Qed.

(** C5.  On an attached adapter [clear()] goes through the keys of the
    cache in order and deletes each on its own: the collaborative map
    receives two [delete] calls per key and no other call, and one
    [remove] event is emitted per entry, carrying its key and value.
    When it returns [keys()] is empty, the collaborative map holds none of
    the keys, and for every key the events emitted for it are exactly one
    when the cache had the key and none otherwise. *)
Theorem clear_spec (w : World) :
  _gmap w = Ref ->
  ObservableMap.wf (_map w) ->
  exists w',
    GoogleRealtimeMap.clear w = Return tt w' /\
    GoogleRealtimeMap.keys w' = Return [] w' /\
    gcalls (gobj w') =
      (gcalls (gobj w) ++ flat_map clear_calls (ObservableMap.keys (_map w)))%list /\
    (forall k, ObservableMap.has (_map w) k = true -> gentries (gobj w') !! k = None) /\
    exists emitted,
      changed w' = (changed w ++ emitted)%list /\
      emitted = map remove_event (_map w) /\
      forall k, events_of k emitted =
                if ObservableMap.has (_map w) k
                then [remove_event (k, ObservableMap.get (_map w) k)] else [].
Proof.
  intros Hg Hwf.
  exists (fold_left clear_step (ObservableMap.keys (_map w)) w).
  destruct (fold_clear_step_spec (_map w) w eq_refl Hwf) as (Hmap & Hch & Hcalls & Hent).
  split; [now apply clear_attached|].
  split; [unfold GoogleRealtimeMap.keys, read; now rewrite Hmap|].
  split; [exact Hcalls|].
  split; [intros k Hk; rewrite Hent; now rewrite Hk|].
  exists (map remove_event (_map w)).
  split; [exact Hch|]. split; [reflexivity|].
  intros k. now apply events_of_remove_events.
Qed.

Lemma clear_spec_witness :
  _gmap w_two = Ref /\
  ObservableMap.wf (_map w_two) /\
  exists w',
    GoogleRealtimeMap.clear w_two = Return tt w' /\
    GoogleRealtimeMap.keys w' = Return [] w' /\
    length (changed w') = 2%nat.
Proof.
  split; [reflexivity|].
  assert (Hwf : ObservableMap.wf (_map w_two)).
  { unfold ObservableMap.wf. apply (bool_decide_unpack _). vm_compute. exact I. }
  split; [exact Hwf|].
  destruct (clear_spec w_two eq_refl Hwf)
    as (w' & Hc & Hk & _ & _ & emitted & Hch & Hem & _).
  exists w'. split; [exact Hc|]. split; [exact Hk|].
  rewrite Hch, Hem. reflexivity.
Defined.

(** ** dispose *)

(** C6.  The first [dispose()] on an attached adapter returns, removes the
    listeners from the collaborative map through one
    [removeAllEventListeners] call, empties the cache, disconnects the
    signal, drops the reference and sets [isDisposed]; every later call
    returns and leaves the world exactly as it found it, so the
    collaborative map receives no second call and nothing is cleared
    again. *)
Theorem dispose_idempotent (w : World) :
  _gmap w = Ref ->
  _isDisposed w = false ->
  exists w1,
    GoogleRealtimeMap.dispose w = Return tt w1 /\
    glisteners (gobj w1) = 0%nat /\
    gcalls (gobj w1) = (gcalls (gobj w) ++ [GRemoveAllEventListeners])%list /\
    gentries (gobj w1) = gentries (gobj w) /\
    _map w1 = [] /\
    slots w1 = 0%nat /\
    changed w1 = changed w /\
    GoogleRealtimeMap.isDisposed w1 = Return true w1 /\
    GoogleRealtimeMap.dispose w1 = Return tt w1 /\
    forall n, Nat.iter n (fun w' => world_of (GoogleRealtimeMap.dispose w')) w1 = w1.
Proof.
  intros Hg Hd.
  eexists. split.
  { unfold GoogleRealtimeMap.dispose. rewrite Hd.
    unfold mbind, M_bind, modify, gmap_removeAllEventListeners, on_gmap.
    simpl. rewrite Hg. reflexivity. }
  simpl. rewrite clear_empty.
  repeat split.
  induction n as [|n IH]; simpl; [reflexivity|]. now rewrite IH.
Qed.

Lemma dispose_idempotent_witness :
  _gmap w_two = Ref /\
  _isDisposed w_two = false /\
  exists w1,
    GoogleRealtimeMap.dispose w_two = Return tt w1 /\
    gcalls (gobj w1) = [GAddEventListener; GRemoveAllEventListeners] /\
    GoogleRealtimeMap.dispose w1 = Return tt w1.
Proof.
  split; [reflexivity|]. split; [reflexivity|].
  destruct (dispose_idempotent w_two eq_refl eq_refl)
    as (w1 & Hd & _ & Hcalls & _ & _ & _ & _ & _ & Hd2 & _).
  exists w1. repeat split; assumption.
Defined.

(** ** link and unlink *)

(** C8.  In every world [link(map)] and [unlink()] return and leave the
    world as it is: the cache, the collaborative map and the emitted
    events are those of before, and [isLinkable] and [isLinked] read
    false before and after. *)
Theorem link_unlink_noop (w : World) (map : ObservableMap.t) :
  GoogleRealtimeMap.link map w = Return tt w /\
  GoogleRealtimeMap.unlink w = Return tt w /\
  GoogleRealtimeMap.isLinkable w = Return false w /\
  GoogleRealtimeMap.isLinked w = Return false w /\
  _map (world_of (GoogleRealtimeMap.link map w)) = _map w /\
  gobj (world_of (GoogleRealtimeMap.link map w)) = gobj w /\
  changed (world_of (GoogleRealtimeMap.link map w)) = changed w /\
  _map (world_of (GoogleRealtimeMap.unlink w)) = _map w /\
  gobj (world_of (GoogleRealtimeMap.unlink w)) = gobj w /\
  changed (world_of (GoogleRealtimeMap.unlink w)) = changed w.
Proof. repeat split. Qed.

(** ** Histories of an adapter *)

Lemma evolves_fold_delete P ks : forall m m0,
  evolves P m0 m -> evolves P m0 (fold_left ObservableMap.delete ks m).
Proof.
  induction ks as [|k ks IH]; intros m m0 H; simpl; [exact H|].
  apply IH. now apply evolves_delete.
Qed.

Lemma has_delete_false m k key :
  ObservableMap.has m k = false ->
  ObservableMap.has (ObservableMap.delete m key) k = false.
Proof.
  intros H. destruct (decide (k = key)) as [->|Hne].
  - apply has_delete_eq.
  - now rewrite has_delete_ne.
Qed.

Lemma evolves_has_false P m m' k :
  evolves P m m' -> ~ P k ->
  ObservableMap.has m k = false -> ObservableMap.has m' k = false.
Proof.
  intros H HP Hk. induction H.
  - exact Hk.
  - rewrite has_set_ne; [assumption|]. intros ->. contradiction.
  - now apply has_delete_false.
Qed.

Lemma evolves_wf P m m' :
  evolves P m m' -> ObservableMap.wf m -> ObservableMap.wf m'.
Proof.
  intros H Hwf. induction H.
  - exact Hwf.
  - now apply wf_set.
  - now apply wf_delete.
Qed.

(** What one hearing of an event leaves. *)
Lemma hear evt w :
  world_of (listener evt w) =
    if ValueChangedEvent.isLocal evt then w
    else match _createNewEntry (_converters w) (ValueChangedEvent.property evt)
                               (ValueChangedEvent.newValue evt) with
         | Some entry => after_event evt entry w
         | None => w
         end.
Proof.
  destruct (ValueChangedEvent.isLocal evt) eqn:Hloc.
  - now rewrite listener_local.
  - rewrite (listener_nonlocal _ _ Hloc). now destruct (_createNewEntry _ _ _).
Qed.

Lemma iter_listener_evolves evt n : forall w,
  let w' := Nat.iter n (fun w0 => world_of (listener evt w0)) w in
  evolves (fun key => String.eqb (ValueChangedEvent.property evt) key = true)
          (_map w) (_map w') /\
  gobj w' = gobj w /\ _gmap w' = _gmap w /\
  _isDisposed w' = _isDisposed w /\ _converters w' = _converters w.
Proof.
  induction n as [|n IH]; intros w; simpl.
  - split; [apply evolves_refl | auto].
  - destruct (IH w) as (Hev & Hgobj & Hgmap & Hd & Hc).
    rewrite hear.
    destruct (ValueChangedEvent.isLocal evt); [auto|].
    destruct (_createNewEntry _ _ _); [|auto].
    simpl. split; [|auto].
    apply evolves_set; [exact Hev | apply String.eqb_refl].
Qed.

Lemma dispatch_evolves evt w :
  evolves (fun key => String.eqb (ValueChangedEvent.property evt) key = true)
          (_map w) (_map (dispatch evt w)).
Proof. unfold dispatch. apply iter_listener_evolves. Qed.

(** [keys()] of the collaborative map lists its keys. *)
Lemma elem_of_g_keys g k : k ∈ g_keys g <-> is_Some (gentries g !! k).
Proof.
  unfold g_keys.
  assert (Hks : k ∈ (map_to_list (gentries g)).*1 <-> is_Some (gentries g !! k)).
  { rewrite list_elem_of_fmap. split.
    - intros ([k' v] & -> & Hin). apply elem_of_map_to_list in Hin. simpl. eauto.
    - intros [v Hv]. exists (k, v). split; [reflexivity|].
      now apply elem_of_map_to_list. }
  rewrite elem_of_app, !list_elem_of_filter, elem_of_remove_dups, Hks.
  destruct (decide (k ∈ gorder g)); tauto.
Qed.

(** The loop of the setter in closed form. *)
Lemma for_each_populate ks : forall w,
  for_each ks GoogleRealtimeMap.populate w =
    let r := fill (_converters w) (gobj w) ks (_map w) in
    if r.2 then Return tt (with_map (fun _ => r.1) w)
    else Throw (with_map (fun _ => r.1) w).
Proof.
  induction ks as [|k ks IH]; intros w; simpl.
  - now destruct w.
  - unfold mbind at 1, M_bind at 1. unfold GoogleRealtimeMap.populate at 1.
    unfold mbind at 1, M_bind at 1, completes.
    destruct (_createNewEntry (_converters w) k (g_get (gobj w) k)) as [entry|].
    + unfold modify at 1. rewrite IH. simpl.
      now destruct (fill _ _ ks _) as [m' []].
    + now destruct w.
Qed.

Lemma set_googleObject_world w :
  GoogleRealtimeMap.set_googleObject w =
    let r := fill (_converters w) (gobj w) (g_keys (gobj w)) (_map w) in
    if r.2 then
      Return tt
        (with_gobj (fun g => g_log GAddEventListener (g_listeners (S (glisteners g)) g))
           (with_map (fun _ => r.1) (with_gmap Ref w)))
    else Throw (with_map (fun _ => r.1) (with_gmap Ref w)).
Proof.
  unfold GoogleRealtimeMap.set_googleObject.
  unfold mbind at 1, M_bind at 1. unfold modify at 1.
  unfold mbind at 1, M_bind at 1. unfold read at 1.
  unfold mbind at 1, M_bind at 1.
  rewrite for_each_populate. simpl.
  now destruct (fill _ _ _ _) as [m' []].
Qed.

Lemma fill_evolves (P : string -> Prop) converters g ks : forall m m0,
  (forall k, k ∈ ks -> P k) ->
  evolves P m0 m -> evolves P m0 (fill converters g ks m).1.
Proof.
  induction ks as [|k ks IH]; intros m m0 HP H; simpl; [exact H|].
  destruct (_createNewEntry converters k (g_get g k)); [|exact H].
  apply IH.
  - intros k' Hk'. apply HP. now right.
  - apply evolves_set; [exact H | apply HP; now left].
Qed.

(** The loop only sets keys it goes through. *)
Lemma fill_keeps converters g ks k : forall m,
  (ObservableMap.has m k = true ->
   ObservableMap.has (fill converters g ks m).1 k = true) /\
  (k ∉ ks -> cached (fill converters g ks m).1 k = cached m k).
Proof.
  induction ks as [|k0 ks IH]; intros m; simpl; [auto|].
  destruct (_createNewEntry converters k0 (g_get g k0)) as [entry|]; [|auto].
  destruct (IH (ObservableMap.set m k0 entry)) as [IH1 IH2]. split.
  - intros Hk. apply IH1.
    destruct (decide (k = k0)) as [->|Hne]; [apply has_set_eq|].
    now rewrite has_set_ne.
  - intros Hk. apply not_elem_of_cons in Hk as [Hne Hk].
    rewrite (IH2 Hk). now apply cached_set_ne.
Qed.

(** When every entry reconstructs, the loop comes to its end and each key
    it went through holds its reconstructed entry. *)
Lemma fill_complete converters g ks : forall m,
  (forall k, k ∈ ks -> is_Some (_createNewEntry converters k (g_get g k))) ->
  (fill converters g ks m).2 = true /\
  forall k, cached (fill converters g ks m).1 k =
            if decide (k ∈ ks) then _createNewEntry converters k (g_get g k)
            else cached m k.
Proof.
  induction ks as [|k0 ks IH]; intros m Hall; cbn [fill].
  - split; [reflexivity|]. intros k. rewrite decide_False; [reflexivity|].
    apply not_elem_of_nil.
  - destruct (Hall k0) as [entry He]; [now left|]. rewrite He.
    destruct (IH (ObservableMap.set m k0 entry)) as [Hok Hc].
    { intros k Hk. apply Hall. now right. }
    split; [exact Hok|]. intros k. rewrite Hc.
    destruct (decide (k ∈ ks)) as [Hin|Hnin].
    + rewrite decide_True; [reflexivity | now right].
    + destruct (decide (k = k0)) as [->|Hne].
      * rewrite decide_True by now left. rewrite He. apply cached_set_eq.
      * rewrite decide_False.
        -- now apply cached_set_ne.
        -- intros Hin. apply elem_of_cons in Hin as [?|?]; contradiction.
Qed.

Lemma createNewEntry_well_linked converters k item :
  well_linked converters -> is_Some (_createNewEntry converters k item).
Proof.
  intros Hwl. unfold _createNewEntry.
  destruct (negb (truthy item)); [eauto|].
  destruct (has_type item "List").
  - destruct (converters !! k) as [c|] eqn:Hc; [|eauto].
    rewrite (Hwl _ _ _ Hc). eauto.
  - destruct (has_type item "EditableString"); [eauto|].
    destruct (has_type item "Map"); eauto.
Qed.

Lemma fold_clear_step_evolves P ks : forall w m0,
  evolves P m0 (_map w) -> evolves P m0 (_map (fold_left clear_step ks w)).
Proof.
  induction ks as [|k ks IH]; intros w m0 H; simpl; [exact H|].
  apply IH. simpl. now apply evolves_delete.
Qed.

(** Without a collaborative map [set] throws at once and [delete] throws
    after the cache has lost the key. *)
Lemma set_unattached tgs key v w :
  _gmap w = Null -> GoogleRealtimeMap.set tgs key v w = Throw w.
Proof.
  intros Hg. unfold GoogleRealtimeMap.set.
  unfold mbind, M_bind, read, gmap_set, on_gmap. now rewrite Hg.
Qed.

Lemma delete_unattached key w :
  _gmap w = Null ->
  GoogleRealtimeMap.delete key w =
    Throw (with_map (fun m => ObservableMap.delete m key) w).
Proof.
  intros Hg. unfold GoogleRealtimeMap.delete.
  unfold mbind, M_bind, read, modify, gmap_delete, on_gmap. simpl. now rewrite Hg.
Qed.

Lemma clear_evolves P w :
  evolves P (_map w) (_map (world_of (GoogleRealtimeMap.clear w))).
Proof.
  destruct (_gmap w) eqn:Hg.
  - unfold GoogleRealtimeMap.clear, GoogleRealtimeMap.keys.
    unfold mbind at 1, M_bind at 1, read.
    destruct (ObservableMap.keys (_map w)) as [|k ks]; simpl; [apply evolves_refl|].
    unfold mbind at 1, M_bind at 1. unfold mbind at 1, M_bind at 1.
    rewrite (delete_unattached _ _ Hg). simpl.
    apply evolves_delete, evolves_refl.
  - rewrite (clear_attached _ Hg). simpl.
    apply fold_clear_step_evolves, evolves_refl.
Qed.

(** What the setter leaves, whether it returned or threw. *)
Lemma set_googleObject_leaves w :
  let w' := world_of (GoogleRealtimeMap.set_googleObject w) in
  _map w' = (fill (_converters w) (gobj w) (g_keys (gobj w)) (_map w)).1 /\
  _gmap w' = Ref /\
  gentries (gobj w') = gentries (gobj w) /\
  changed w' = changed w /\
  _isDisposed w' = _isDisposed w /\
  _converters w' = _converters w.
Proof.
  intros w'. subst w'. rewrite set_googleObject_world. simpl.
  destruct (fill _ _ _ _) as [m' []]; simpl; auto 10.
Qed.

(** Every operation changes the cache by deletions and by setting keys it
    touches. *)
Lemma exec_evolves tgs op w :
  evolves (fun k => touches k op w = true) (_map w) (_map (exec tgs op w)).
Proof.
  destruct op as [|key v|key| |key val sv|m| | |key v|key|key v|key|order]; simpl.
  - rewrite (proj1 (set_googleObject_leaves w)).
    apply fill_evolves; [|apply evolves_refl].
    intros k Hk. apply elem_of_g_keys in Hk as [v Hv]. now rewrite Hv.
  - destruct (_gmap w) eqn:Hg.
    + rewrite (set_unattached _ _ _ _ Hg). apply evolves_refl.
    + rewrite (set_attached _ _ _ _ Hg). simpl.
      apply evolves_set; [apply evolves_refl | apply String.eqb_refl].
  - destruct (_gmap w) eqn:Hg.
    + rewrite (delete_unattached _ _ Hg). simpl. apply evolves_delete, evolves_refl.
    + rewrite (delete_attached _ _ Hg). simpl. apply evolves_delete, evolves_refl.
  - apply clear_evolves.
  - unfold GoogleRealtimeMap.linkSet, mbind, M_bind, modify, gmap_set, on_gmap. simpl.
    destruct (_gmap w); simpl.
    + apply evolves_set; [apply evolves_refl | apply String.eqb_refl].
    + rewrite g_set_local. simpl.
      apply evolves_set; [apply evolves_refl | apply String.eqb_refl].
  - apply evolves_refl.
  - apply evolves_refl.
  - unfold GoogleRealtimeMap.dispose.
    destruct (_isDisposed w); simpl; [apply evolves_refl|].
    unfold mbind, M_bind, modify, gmap_removeAllEventListeners, on_gmap. simpl.
    destruct (_gmap w); simpl; [apply evolves_refl|].
    unfold ObservableMap.clear. apply evolves_fold_delete, evolves_refl.
  - unfold g_set.
    match goal with
    | |- evolves _ _ (_map (dispatch ?e ?w0)) => exact (dispatch_evolves e w0)
    end.
  - unfold g_delete.
    match goal with
    | |- evolves _ _ (_map (dispatch ?e ?w0)) => exact (dispatch_evolves e w0)
    end.
  - rewrite g_set_local. apply evolves_refl.
  - rewrite g_delete_local. apply evolves_refl.
  - apply evolves_refl.
Qed.

(** The cache of an adapter holds no key twice, whatever happened to it. *)
Lemma run_wf tgs ops : forall w,
  ObservableMap.wf (_map w) -> ObservableMap.wf (_map (run tgs ops w)).
Proof.
  unfold run. induction ops as [|op ops IH]; intros w Hwf; simpl; [exact Hwf|].
  apply IH. eapply evolves_wf; [apply exec_evolves | exact Hwf].
Qed.

(** ** Keys the adapter never saw *)

(** C7.  Start from a newly constructed adapter and let anything happen to
    it.  For a key that was never set through the adapter ([set],
    [linkSet]) and never came from the collaborative map (held by the map
    when it was attached, or changed by a collaborator), [has] returns
    false and [get] returns [undefined]; neither throws. *)
Theorem unseen_key_absent (tgs : value -> value) (g : CollaborativeMap)
    (converters : gmap string IRealtimeConverter) (ops : list Op) (k : string) :
  untouched tgs k ops (constructor g converters) = true ->
  let w := run tgs ops (constructor g converters) in
  GoogleRealtimeMap.has k w = Return false w /\
  GoogleRealtimeMap.get k w = Return undefined w.
Proof.
  intros Hun w.
  assert (Hhas : ObservableMap.has (_map w) k = false).
  { subst w. unfold run.
    assert (Hgen : forall ops w0,
               untouched tgs k ops w0 = true ->
               ObservableMap.has (_map w0) k = false ->
               ObservableMap.has (_map (fold_left (fun w op => exec tgs op w) ops w0)) k = false).
    { clear. induction ops as [|op ops IH]; intros w0 Hun H0; simpl; [exact H0|].
      simpl in Hun. apply andb_prop in Hun as [Ht Hun].
      apply IH; [exact Hun|].
      eapply evolves_has_false; [apply exec_evolves | | exact H0].
      simpl. destruct (touches k op w0); [discriminate | congruence]. }
    apply Hgen; [exact Hun | reflexivity]. }
  unfold GoogleRealtimeMap.has, GoogleRealtimeMap.get, read.
  rewrite Hhas, (get_absent _ _ Hhas). auto.
Qed.

Lemma unseen_key_absent_witness :
  let ops := [OpSetGoogleObject; OpSet "b" (JNum 1); CollaboratorSet "c" (JNum 2);
              OpDelete "z"; OpClear; OpDispose] in
  let w := run (fun x => x) ops (constructor g_zero ∅) in
  untouched (fun x => x) "z" ops (constructor g_zero ∅) = true /\
  GoogleRealtimeMap.has "z" w = Return false w /\
  GoogleRealtimeMap.get "z" w = Return undefined w.
Proof.
  split; [reflexivity|].
  exact (unseen_key_absent (fun x => x) g_zero ∅
           [OpSetGoogleObject; OpSet "b" (JNum 1); CollaboratorSet "c" (JNum 2);
            OpDelete "z"; OpClear; OpDispose] "z" eq_refl).
Defined.

(** ** size and keys *)

Lemma same_keys_same_count w :
  ObservableMap.wf (_map w) -> same_keys w ->
  size (gentries (gobj w)) = length (ObservableMap.keys (_map w)).
Proof.
  intros Hwf Hsame.
  rewrite <- size_dom.
  assert (Hdom : dom (gentries (gobj w)) = list_to_set (ObservableMap.keys (_map w))).
  { apply set_eq. intros k.
    rewrite elem_of_dom, elem_of_list_to_set, <- has_keys. symmetry. apply Hsame. }
  rewrite Hdom. now apply size_list_to_set.
Qed.

(** C9, as amended.  On an attached adapter [size] is the number of
    entries of the collaborative map and [keys()] lists the keys of the
    cache; the two numbers agree whenever cache and collaborative map hold
    the same keys, and there are histories after which the key sets
    diverge and the numbers differ. *)
Theorem size_reads_collaborative_map :
  (forall w : World,
     _gmap w = Ref ->
     GoogleRealtimeMap.size w = Return (size (gentries (gobj w))) w /\
     GoogleRealtimeMap.keys w = Return (ObservableMap.keys (_map w)) w /\
     (ObservableMap.wf (_map w) -> same_keys w ->
      size (gentries (gobj w)) = length (ObservableMap.keys (_map w)))) /\
  (~ same_keys w_behind /\
   GoogleRealtimeMap.size w_behind = Return 2%nat w_behind /\
   GoogleRealtimeMap.keys w_behind = Return ["a"] w_behind).
Proof.
  split.
  - intros w Hg. split; [|split].
    + unfold GoogleRealtimeMap.size, gmap_size, on_gmap. now rewrite Hg.
    + reflexivity.
    + apply same_keys_same_count.
  - split; [|split; reflexivity].
    intros Hsame.
    assert (Hb : ObservableMap.has (_map w_behind) "b" = true).
    { apply Hsame. exists (JNum 1). reflexivity. }
    vm_compute in Hb. discriminate.
Qed.

Lemma size_reads_collaborative_map_witness :
  _gmap w_two = Ref /\
  GoogleRealtimeMap.size w_two = Return 2%nat w_two /\
  GoogleRealtimeMap.keys w_two = Return ["a"; "b"] w_two.
Proof.
  split; [reflexivity|].
  destruct (proj1 size_reads_collaborative_map w_two eq_refl) as (Hsize & Hkeys & _).
  split; [exact Hsize | exact Hkeys].
Defined.

(** C9 as stated fails where the key sets diverge and have the same
    number of keys: the cache holds ["a"] only, the collaborative map
    ["b"] only, and [size] and the length of [keys()] are both 1. *)
Lemma diverged_keys_same_count :
  ~ same_keys w_diverged /\
  GoogleRealtimeMap.keys w_diverged = Return ["a"] w_diverged /\
  map fst (map_to_list (gentries (gobj w_diverged))) = ["b"] /\
  GoogleRealtimeMap.size w_diverged = Return 1%nat w_diverged /\
  length (ObservableMap.keys (_map w_diverged)) = 1%nat.
Proof.
  split; [|repeat split].
  intros Hsame. destruct (proj1 (Hsame "a") eq_refl) as [v Hv].
  vm_compute in Hv. discriminate.
Qed.

(** ** Further properties *)

(** X1.  When the new value of a non-local event reconstructs, the
    listener returns and the cache has the event's key afterwards, with the
    reconstructed entry, whatever the event's tag.  A falsy new value
    always reconstructs, to itself: for an event that reports a removal
    the listener stores that value with [set], where [delete(key)] takes
    the key out of the cache. *)
Theorem listener_keeps_key (w : World) (p : string) (old new : value) :
  let evt := {| ValueChangedEvent.property := p;
                ValueChangedEvent.oldValue := old;
                ValueChangedEvent.newValue := new;
                ValueChangedEvent.isLocal := false |} in
  (forall entry,
     _createNewEntry (_converters w) p new = Some entry ->
     exists w',
       listener evt w = Return tt w' /\
       GoogleRealtimeMap.has p w' = Return true w' /\
       p ∈ ObservableMap.keys (_map w') /\
       GoogleRealtimeMap.get p w' = Return entry w') /\
  (truthy new = false ->
   exists w',
     listener evt w = Return tt w' /\
     GoogleRealtimeMap.has p w' = Return true w' /\
     p ∈ ObservableMap.keys (_map w') /\
     GoogleRealtimeMap.get p w' = Return new w').
Proof.
  intros evt.
  assert (H : forall entry,
             _createNewEntry (_converters w) p new = Some entry ->
             exists w',
               listener evt w = Return tt w' /\
               GoogleRealtimeMap.has p w' = Return true w' /\
               p ∈ ObservableMap.keys (_map w') /\
               GoogleRealtimeMap.get p w' = Return entry w').
  { intros entry He. exists (after_event evt entry w).
    pose proof (listener_nonlocal evt w eq_refl) as Hl. simpl in Hl.
    rewrite He in Hl. split; [exact Hl|].
    unfold GoogleRealtimeMap.has, GoogleRealtimeMap.get, read. simpl.
    rewrite has_set_eq, get_set_eq. split; [reflexivity|].
    split; [apply has_keys, has_set_eq | reflexivity]. }
  split; [exact H|].
  intros Hf. apply H. unfold _createNewEntry. now rewrite Hf.
Qed.

Lemma listener_keeps_key_witness :
  exists w',
    listener {| ValueChangedEvent.property := "a";
                ValueChangedEvent.oldValue := JNum 1;
                ValueChangedEvent.newValue := null;
                ValueChangedEvent.isLocal := false |} w_two = Return tt w' /\
    GoogleRealtimeMap.has "a" w' = Return true w' /\
    GoogleRealtimeMap.get "a" w' = Return null w'.
Proof.
  destruct (proj2 (listener_keeps_key w_two "a" (JNum 1) null) eq_refl)
    as (w' & Hl & Hhas & _ & Hget).
  exists w'. repeat split; assumption.
Defined.

(** X2.  On an adapter whose [_gmap] is null and that is not disposed,
    [dispose()] throws at [this._gmap.removeAllEventListeners()]: the
    signal is disconnected, but the cache keeps what it held, the
    collaborative map is not reached and [isDisposed] stays false, so the
    next call throws again. *)
Theorem dispose_unattached_throws (w : World) :
  _gmap w = Null ->
  _isDisposed w = false ->
  exists w1,
    GoogleRealtimeMap.dispose w = Throw w1 /\
    _map w1 = _map w /\
    gobj w1 = gobj w /\
    slots w1 = 0%nat /\
    GoogleRealtimeMap.isDisposed w1 = Return false w1 /\
    GoogleRealtimeMap.dispose w1 = Throw w1.
Proof.
  intros Hg Hd. exists (with_slots 0%nat w).
  assert (H : forall w0, _gmap w0 = Null -> _isDisposed w0 = false ->
                         GoogleRealtimeMap.dispose w0 = Throw (with_slots 0%nat w0)).
  { intros w0 Hg0 Hd0. unfold GoogleRealtimeMap.dispose. rewrite Hd0.
    unfold mbind, M_bind, modify, gmap_removeAllEventListeners, on_gmap.
    simpl. now rewrite Hg0. }
  split; [now apply H|].
  split; [reflexivity|]. split; [reflexivity|]. split; [reflexivity|].
  split; [unfold GoogleRealtimeMap.isDisposed, read; simpl; now rewrite Hd|].
  now rewrite (H (with_slots 0%nat w)).
Qed.

Lemma dispose_unattached_throws_witness :
  let w := world_of (GoogleRealtimeMap.linkSet (fun x => x) "z" (JNum 9) null
                       (constructor g_zero ∅)) in
  _gmap w = Null /\
  _isDisposed w = false /\
  exists w1,
    GoogleRealtimeMap.dispose w = Throw w1 /\
    GoogleRealtimeMap.keys w1 = Return ["z"] w1.
Proof.
  split; [reflexivity|]. split; [reflexivity|].
  destruct (dispose_unattached_throws
              (world_of (GoogleRealtimeMap.linkSet (fun x => x) "z" (JNum 9) null
                           (constructor g_zero ∅))) eq_refl eq_refl)
    as (w1 & Hd & Hm & _).
  exists w1. split; [exact Hd|].
  unfold GoogleRealtimeMap.keys, read. now rewrite Hm.
Defined.

(** X3.  The cache of an adapter never holds a key twice: from a newly
    constructed adapter, whatever happens to it, [keys()] has no
    duplicate. *)
Theorem keys_no_duplicate (tgs : value -> value) (g : CollaborativeMap)
    (converters : gmap string IRealtimeConverter) (ops : list Op) :
  NoDup (ObservableMap.keys (_map (run tgs ops (constructor g converters)))).
Proof. apply run_wf, wf_nil. Qed.

(** ** Attaching the collaborative map *)

Lemma cached_has m k : ObservableMap.has m k = true <-> is_Some (cached m k).
Proof.
  unfold cached. destruct (ObservableMap.has m k); split; intros H;
    try discriminate; eauto.
  destruct H as [? H]. discriminate.
Qed.

Lemma cached_get m k v : cached m k = Some v -> ObservableMap.get m k = v.
Proof.
  unfold cached. destruct (ObservableMap.has m k); [|discriminate]. congruence.
Qed.

(** When every entry of the map reconstructs the setter returns, and the
    cache holds the reconstructed entry at each key of the map. *)
Lemma set_googleObject_returns w :
  (forall k v, gentries (gobj w) !! k = Some v ->
     is_Some (_createNewEntry (_converters w) k v)) ->
  exists w',
    GoogleRealtimeMap.set_googleObject w = Return tt w' /\
    gobj w' = g_log GAddEventListener (g_listeners (S (glisteners (gobj w))) (gobj w)) /\
    forall k, cached (_map w') k =
              match gentries (gobj w) !! k with
              | Some v => _createNewEntry (_converters w) k v
              | None => cached (_map w) k
              end.
Proof.
  intros Hall.
  destruct (fill_complete (_converters w) (gobj w) (g_keys (gobj w)) (_map w))
    as [Hok Hc].
  { intros k Hk. apply elem_of_g_keys in Hk as [v Hv].
    unfold g_get. rewrite Hv. simpl. now apply Hall. }
  rewrite set_googleObject_world. simpl. rewrite Hok.
  eexists. split; [reflexivity|]. split; [reflexivity|].
  intros k. simpl. rewrite Hc. unfold g_get.
  destruct (gentries (gobj w) !! k) as [v|] eqn:Hk.
  - rewrite decide_True; [reflexivity|]. apply elem_of_g_keys. rewrite Hk. eauto.
  - rewrite decide_False; [reflexivity|]. rewrite elem_of_g_keys, Hk.
    intros [? ?]. discriminate.
Qed.

Lemma set_googleObject_same_keys w w' :
  _map w = [] ->
  (forall k v, gentries (gobj w) !! k = Some v ->
     is_Some (_createNewEntry (_converters w) k v)) ->
  (forall k, cached (_map w') k =
             match gentries (gobj w) !! k with
             | Some v => _createNewEntry (_converters w) k v
             | None => cached (_map w) k
             end) ->
  gentries (gobj w') = gentries (gobj w) ->
  same_keys w'.
Proof.
  intros Hm Hall Hc He k. rewrite cached_has, Hc, He, Hm.
  destruct (gentries (gobj w) !! k) as [v|] eqn:Hk.
  - split; [eauto|]. intros _. now apply (Hall k v).
  - split; intros [? ?]; discriminate.
Qed.

(** X4.  When every entry of the collaborative map reconstructs, setting
    [googleObject] on a newly constructed adapter returns, fills the cache
    with exactly the keys of the map, each with its reconstructed entry,
    registers the listener once, and neither changes the map's entries
    nor emits an event; [size] and the length of [keys()] then agree. *)
Theorem set_googleObject_populates (g : CollaborativeMap)
    (converters : gmap string IRealtimeConverter) :
  (forall k v, gentries g !! k = Some v ->
     is_Some (_createNewEntry converters k v)) ->
  exists w,
    GoogleRealtimeMap.set_googleObject (constructor g converters) = Return tt w /\
    same_keys w /\
    (forall k v, gentries g !! k = Some v ->
       exists entry,
         _createNewEntry converters k v = Some entry /\
         GoogleRealtimeMap.get k w = Return entry w) /\
    GoogleRealtimeMap.size w = Return (length (ObservableMap.keys (_map w))) w /\
    glisteners (gobj w) = 1%nat /\
    gentries (gobj w) = gentries g /\
    changed w = [].
Proof.
  intros Hall.
  destruct (set_googleObject_returns (constructor g converters) Hall)
    as (w & Hret & Hgobj & Hc).
  assert (Hw : w = world_of (GoogleRealtimeMap.set_googleObject (constructor g converters)))
    by now rewrite Hret.
  destruct (set_googleObject_leaves (constructor g converters))
    as (_ & Hgmap & Hent & Hch & _). rewrite <- Hw in Hgmap, Hent, Hch.
  assert (Hsame : same_keys w).
  { now apply (set_googleObject_same_keys (constructor g converters)). }
  exists w. split; [exact Hret|]. split; [exact Hsame|]. split; [|split; [|split]].
  - intros k v Hk. destruct (Hall k v Hk) as [entry He]. exists entry.
    split; [exact He|]. unfold GoogleRealtimeMap.get, read. f_equal.
    apply cached_get. rewrite Hc. simpl. now rewrite Hk.
  - unfold GoogleRealtimeMap.size, gmap_size, on_gmap, read. rewrite Hgmap. f_equal.
    apply (same_keys_same_count w); [|exact Hsame]. rewrite Hw.
    apply (run_wf (fun x => x) [OpSetGoogleObject] (constructor g converters)), wf_nil.
  - now rewrite Hgobj.
  - split; [exact Hent | exact Hch].
Qed.

Lemma set_googleObject_populates_witness :
  exists w,
    GoogleRealtimeMap.set_googleObject (constructor g_list {["a" := conv_link]})
      = Return tt w /\
    GoogleRealtimeMap.get "a" w = Return (JLinkable 0) w /\
    glisteners (gobj w) = 1%nat.
Proof.
  destruct (set_googleObject_populates g_list {["a" := conv_link]})
    as (w & Hret & _ & Hget & _ & Hl & _).
  { intros k v _. apply createNewEntry_well_linked.
    intros k' c vec Hc. apply lookup_singleton_Some in Hc as [_ <-]. reflexivity. }
  exists w. split; [exact Hret|]. split; [|exact Hl].
  destruct (Hget "a" (JObject (Some "List") 1) eq_refl) as (entry & He & Hg).
  injection He as <-. exact Hg.
Defined.

(** X5.  The setter only adds to the cache: a key cached before is still
    there afterwards, and keeps its value when the collaborative map does
    not hold it. *)
Theorem set_googleObject_keeps_cached_keys (w : World) (k : string) :
  ObservableMap.has (_map w) k = true ->
  let w' := world_of (GoogleRealtimeMap.set_googleObject w) in
  GoogleRealtimeMap.has k w' = Return true w' /\
  (gentries (gobj w) !! k = None ->
   GoogleRealtimeMap.get k w' = Return (ObservableMap.get (_map w) k) w').
Proof.
  intros Hk w'.
  destruct (set_googleObject_leaves w) as (Hm & _). fold w' in Hm.
  destruct (fill_keeps (_converters w) (gobj w) (g_keys (gobj w)) k (_map w))
    as [Hhas Hc]. rewrite <- Hm in Hhas, Hc.
  split.
  - unfold GoogleRealtimeMap.has, read. now rewrite (Hhas Hk).
  - intros Hnone. unfold GoogleRealtimeMap.get, read. f_equal.
    assert (Hnin : k ∉ g_keys (gobj w)).
    { rewrite elem_of_g_keys, Hnone. intros [? ?]. discriminate. }
    specialize (Hc Hnin).
    apply cached_has in Hk as [v0 Hv0]. rewrite Hv0 in Hc.
    rewrite (cached_get _ _ _ Hc). symmetry. now apply cached_get.
Qed.

Lemma set_googleObject_keeps_cached_keys_witness :
  let w := world_of (GoogleRealtimeMap.linkSet (fun x => x) "z" (JNum 9) null
                       (constructor g_zero ∅)) in
  let w' := world_of (GoogleRealtimeMap.set_googleObject w) in
  ObservableMap.has (_map w) "z" = true /\
  GoogleRealtimeMap.has "z" w' = Return true w' /\
  GoogleRealtimeMap.keys w' = Return ["z"; "a"] w'.
Proof.
  split; [reflexivity|]. split; [|reflexivity].
  exact (proj1 (set_googleObject_keeps_cached_keys
                  (world_of (GoogleRealtimeMap.linkSet (fun x => x) "z" (JNum 9) null
                               (constructor g_zero ∅))) "z" eq_refl)).
Defined.

(** ** One notification per registered listener *)

Lemma iter_listener_changed evt entry n w :
  ValueChangedEvent.isLocal evt = false ->
  _createNewEntry (_converters w) (ValueChangedEvent.property evt)
                  (ValueChangedEvent.newValue evt) = Some entry ->
  changed (Nat.iter n (fun w0 => world_of (listener evt w0)) w) =
    (changed w ++ replicate n (args_of evt))%list.
Proof.
  intros Hloc He. induction n as [|n IH].
  - simpl. now rewrite app_nil_r.
  - rewrite replicate_S_end, app_assoc, <- IH. simpl.
    rewrite hear, Hloc.
    destruct (iter_listener_evolves evt n w) as (_ & _ & _ & _ & Hc).
    simpl in Hc. rewrite Hc, He. reflexivity.
Qed.

(** X6.  The setter registers a listener and removes none, so a change a
    collaborator makes is emitted once per time the listener is
    registered: when the setter returns, one more copy of the event than
    listeners were registered before, provided the new value
    reconstructs. *)
Theorem collaborator_change_emitted_per_listener (w w1 : World)
    (key : string) (v entry : value) :
  GoogleRealtimeMap.set_googleObject w = Return tt w1 ->
  _createNewEntry (_converters w) key v = Some entry ->
  let old := default null (gentries (gobj w) !! key) in
  glisteners (gobj w1) = S (glisteners (gobj w)) /\
  changed (g_set false key v w1) =
    (changed w ++
     replicate (S (glisteners (gobj w)))
       {| IChangedArgs.type := changeType old v;
          IChangedArgs.key := key;
          IChangedArgs.oldValue := old;
          IChangedArgs.newValue := v |})%list.
Proof.
  intros Hret He old.
  rewrite set_googleObject_world in Hret. simpl in Hret.
  destruct (fill _ _ _ _) as [m' []]; [|discriminate].
  injection Hret as <-. split; [reflexivity|].
  unfold g_set, dispatch.
  rewrite (iter_listener_changed _ entry) by (try reflexivity; exact He).
  reflexivity.
Qed.

Lemma collaborator_change_emitted_per_listener_witness :
  let w1 := world_of (GoogleRealtimeMap.set_googleObject w_zero) in
  GoogleRealtimeMap.set_googleObject w_zero = Return tt w1 /\
  glisteners (gobj w1) = 2%nat /\
  length (changed (g_set false "a" (JNum 5) w1)) = 2%nat.
Proof.
  split; [reflexivity|].
  destruct (collaborator_change_emitted_per_listener w_zero
              (world_of (GoogleRealtimeMap.set_googleObject w_zero))
              "a" (JNum 5) (JNum 5) eq_refl eq_refl) as [Hl Hch].
  split; [exact Hl|]. rewrite Hch. reflexivity.
Defined.

(** ** Reconstructed entries *)

(** X7.  [_createNewEntry] consults the key's converter for a collaborative
    list only: for any other item, or a key without converter, it returns,
    the result is the one obtained with no converters at all, it is truthy
    exactly when the item is, and an item without a [type] property comes
    back unchanged. *)
Theorem createNewEntry_converter_for_lists_only
    (converters : gmap string IRealtimeConverter) (key : string) (item : value) :
  has_type item "List" = false \/ converters !! key = None ->
  _createNewEntry converters key item = _createNewEntry ∅ key item /\
  (exists entry,
     _createNewEntry converters key item = Some entry /\
     truthy entry = truthy item) /\
  (type_of item = None -> _createNewEntry converters key item = Some item).
Proof.
  intros H. unfold _createNewEntry. rewrite lookup_empty.
  destruct (truthy item) eqn:Ht; simpl; [|eauto 6].
  destruct (has_type item "List") eqn:HL.
  - destruct H as [H|H]; [discriminate|]. rewrite H.
    split; [reflexivity|]. split; [eauto|].
    intros Hty. unfold has_type in HL. rewrite Hty in HL. discriminate.
  - destruct (has_type item "EditableString") eqn:HS;
      [|destruct (has_type item "Map") eqn:HM].
    + split; [reflexivity|]. split; [eauto|].
      intros Hty. unfold has_type in HS. rewrite Hty in HS. discriminate.
    + split; [reflexivity|]. split; [eauto|].
      intros Hty. unfold has_type in HM. rewrite Hty in HM. discriminate.
    + eauto 6.
Qed.

Lemma createNewEntry_converter_for_lists_only_witness :
  _createNewEntry {["a" := conv7]} "a" (JObject (Some "Map") 3)
  = Some (NewGoogleRealtimeMap (JObject (Some "Map") 3)).
Proof.
  exact (proj1 (createNewEntry_converter_for_lists_only {["a" := conv7]} "a"
                  (JObject (Some "Map") 3) (or_introl eq_refl))).
Defined.

(** ** linkSet *)

(** X8.  On an attached adapter [linkSet(key, val, shadowVal)] returns,
    stores [val] in the cache and [toGoogleSynchronizable(shadowVal)] in
    the collaborative map, whatever converter the key has, and, unlike
    [set], emits no event. *)
Theorem linkSet_spec (tgs : value -> value) (w : World)
    (key : string) (val shadowVal : value) :
  _gmap w = Ref ->
  exists w',
    GoogleRealtimeMap.linkSet tgs key val shadowVal w = Return tt w' /\
    _map w' = ObservableMap.set (_map w) key val /\
    gentries (gobj w') = <[key := tgs shadowVal]> (gentries (gobj w)) /\
    gcalls (gobj w') = (gcalls (gobj w) ++ [GSet key (tgs shadowVal)])%list /\
    changed w' = changed w /\
    GoogleRealtimeMap.get key w' = Return val w' /\
    GoogleRealtimeMap.has key w' = Return true w'.
Proof.
  intros Hg. eexists. split.
  { unfold GoogleRealtimeMap.linkSet. unfold mbind, M_bind. unfold modify at 1.
    rewrite gmap_set_attached by exact Hg. reflexivity. }
  simpl. repeat split.
  - unfold GoogleRealtimeMap.get, read. simpl. now rewrite get_set_eq.
  - unfold GoogleRealtimeMap.has, read. simpl. now rewrite has_set_eq.
Qed.

Lemma linkSet_spec_witness :
  _gmap w_conv = Ref /\
  exists w',
    GoogleRealtimeMap.linkSet (fun x => x) "a" (JNum 1) (JNum 2) w_conv = Return tt w' /\
    gentries (gobj w') !! "a" = Some (JNum 2) /\
    changed w' = [].
Proof.
  split; [reflexivity|].
  destruct (linkSet_spec (fun x => x) w_conv "a" (JNum 1) (JNum 2) eq_refl)
    as (w' & Hl & _ & Hent & _ & Hch & _).
  exists w'. split; [exact Hl|]. split; [|exact Hch].
  rewrite Hent. apply lookup_insert_eq.
Defined.

(** ** Calls without a collaborative map *)

(** X9.  While [_gmap] is null (before the setter ran, or after
    [dispose()]) [size] and [set] throw and leave the world untouched,
    whereas [delete] and [linkSet] throw after they changed the cache:
    the key is gone, respectively stored, although the call failed; none
    of them emits an event or reaches the collaborative map. *)
Theorem calls_without_collaborative_map (tgs : value -> value) (w : World)
    (key : string) (v shadowVal : value) :
  _gmap w = Null ->
  GoogleRealtimeMap.size w = Throw w /\
  GoogleRealtimeMap.set tgs key v w = Throw w /\
  (exists w',
     GoogleRealtimeMap.delete key w = Throw w' /\
     GoogleRealtimeMap.has key w' = Return false w' /\
     changed w' = changed w /\ gobj w' = gobj w) /\
  (exists w',
     GoogleRealtimeMap.linkSet tgs key v shadowVal w = Throw w' /\
     GoogleRealtimeMap.get key w' = Return v w' /\
     GoogleRealtimeMap.has key w' = Return true w' /\
     changed w' = changed w /\ gobj w' = gobj w).
Proof.
  intros Hg. split; [|split; [|split]].
  - unfold GoogleRealtimeMap.size, gmap_size, on_gmap. now rewrite Hg.
  - now apply set_unattached.
  - eexists. split; [now apply delete_unattached|].
    unfold GoogleRealtimeMap.has, read. simpl. now rewrite has_delete_eq.
  - eexists. split.
    { unfold GoogleRealtimeMap.linkSet. unfold mbind, M_bind. unfold modify at 1.
      unfold gmap_set, on_gmap. simpl. rewrite Hg. reflexivity. }
    unfold GoogleRealtimeMap.get, GoogleRealtimeMap.has, read. simpl.
    now rewrite get_set_eq, has_set_eq.
Qed.

Lemma calls_without_collaborative_map_witness :
  let w := constructor g_zero ∅ in
  _gmap w = Null /\
  GoogleRealtimeMap.set (fun x => x) "a" (JNum 1) w = Throw w /\
  GoogleRealtimeMap.size w = Throw w.
Proof.
  split; [reflexivity|].
  destruct (calls_without_collaborative_map (fun x => x) (constructor g_zero ∅)
              "a" (JNum 1) null eq_refl) as (Hsize & Hset & _).
  split; assumption.
Defined.

(** ** After dispose *)

Lemma dispose_attached w :
  _gmap w = Ref -> _isDisposed w = false ->
  GoogleRealtimeMap.dispose w =
    Return tt
      (with_isDisposed true
         (with_gmap Null
            (with_map (fun _ => [])
               (with_gobj (fun g => g_log GRemoveAllEventListeners (g_listeners 0%nat g))
                  (with_slots 0%nat w))))).
Proof.
  intros Hg Hd. unfold GoogleRealtimeMap.dispose. rewrite Hd.
  unfold mbind, M_bind, modify, gmap_removeAllEventListeners, on_gmap.
  simpl. rewrite Hg. unfold with_map at 1. simpl. now rewrite clear_empty.
Qed.

(** X10.  Once [dispose()] has returned the adapter is cut off: reads see
    an empty cache ([get] gives [undefined], [has] false, [keys()] nothing),
    [clear()] returns with nothing to do, [set] throws, and a change a
    collaborator makes afterwards reaches neither the cache nor the
    [changed] signal. *)
Theorem disposed_adapter_is_detached (tgs : value -> value) (w : World)
    (key : string) (v : value) :
  _gmap w = Ref ->
  _isDisposed w = false ->
  let w1 := world_of (GoogleRealtimeMap.dispose w) in
  GoogleRealtimeMap.get key w1 = Return undefined w1 /\
  GoogleRealtimeMap.has key w1 = Return false w1 /\
  GoogleRealtimeMap.keys w1 = Return [] w1 /\
  GoogleRealtimeMap.clear w1 = Return tt w1 /\
  GoogleRealtimeMap.set tgs key v w1 = Throw w1 /\
  _map (g_set false key v w1) = [] /\
  changed (g_set false key v w1) = changed w.
Proof.
  intros Hg Hd w1. subst w1. rewrite (dispose_attached _ Hg Hd). simpl.
  repeat split.
Qed.

Lemma disposed_adapter_is_detached_witness :
  let w1 := world_of (GoogleRealtimeMap.dispose w_two) in
  _gmap w_two = Ref /\
  _isDisposed w_two = false /\
  GoogleRealtimeMap.get "a" w1 = Return undefined w1 /\
  changed (g_set false "a" (JNum 5) w1) = [].
Proof.
  split; [reflexivity|]. split; [reflexivity|].
  destruct (disposed_adapter_is_detached (fun x => x) w_two "a" (JNum 5) eq_refl eq_refl)
    as (Hget & _ & _ & _ & _ & _ & Hch).
  split; [exact Hget | exact Hch].
Defined.

(** X11.  The setter does not reset [_isDisposed].  When every entry of
    the collaborative map reconstructs, setting [googleObject] again after
    a [dispose()] returns and gives a working adapter (the cache holds the
    keys of the collaborative map and the listener is registered) that
    still reports [isDisposed], and on which [dispose()] returns at once,
    leaving the listener and the cache in place. *)
Theorem reattached_adapter_stays_disposed (w : World) :
  _gmap w = Ref ->
  _isDisposed w = false ->
  (forall k v, gentries (gobj w) !! k = Some v ->
     is_Some (_createNewEntry (_converters w) k v)) ->
  let w1 := world_of (GoogleRealtimeMap.dispose w) in
  exists w2,
    GoogleRealtimeMap.set_googleObject w1 = Return tt w2 /\
    _gmap w2 = Ref /\
    same_keys w2 /\
    glisteners (gobj w2) = 1%nat /\
    GoogleRealtimeMap.isDisposed w2 = Return true w2 /\
    GoogleRealtimeMap.dispose w2 = Return tt w2.
Proof.
  intros Hg Hd Hall w1. subst w1. rewrite (dispose_attached _ Hg Hd). simpl.
  match goal with
  | |- exists w2, GoogleRealtimeMap.set_googleObject ?w1 = _ /\ _ =>
      destruct (set_googleObject_returns w1 Hall) as (w2 & Hret & Hgobj & Hc);
      destruct (set_googleObject_leaves w1) as (_ & Hgmap & Hent & _ & Hdis & _);
      pose proof (set_googleObject_same_keys w1 w2 eq_refl Hall Hc) as Hsame
  end.
  rewrite Hret in Hgmap, Hent, Hdis. simpl in Hgmap, Hent, Hdis.
  exists w2. split; [exact Hret|]. split; [exact Hgmap|].
  split; [now apply Hsame|].
  split; [now rewrite Hgobj|].
  unfold GoogleRealtimeMap.isDisposed, GoogleRealtimeMap.dispose, read.
  now rewrite Hdis.
Qed.

Lemma reattached_adapter_stays_disposed_witness :
  _gmap w_two = Ref /\
  _isDisposed w_two = false /\
  exists w2,
    GoogleRealtimeMap.set_googleObject
      (world_of (GoogleRealtimeMap.dispose w_two)) = Return tt w2 /\
    glisteners (gobj w2) = 1%nat /\
    GoogleRealtimeMap.dispose w2 = Return tt w2.
Proof.
  split; [reflexivity|]. split; [reflexivity|].
  destruct (reattached_adapter_stays_disposed w_two eq_refl eq_refl)
    as (w2 & Hret & _ & _ & Hl & _ & Hd).
  { intros k v _. apply createNewEntry_well_linked.
    assert (Hcv : _converters w_two = ∅) by reflexivity. rewrite Hcv.
    intros k' c vec Hc. rewrite lookup_empty in Hc. discriminate. }
  exists w2. repeat split; assumption.
Defined.

Lemma iter_listener_isDisposed evt n w :
  _isDisposed (Nat.iter n (fun w0 => world_of (listener evt w0)) w) = _isDisposed w.
Proof. apply (iter_listener_evolves evt n w). Qed.

Lemma fold_clear_step_isDisposed ks : forall w,
  _isDisposed (fold_left clear_step ks w) = _isDisposed w.
Proof.
  induction ks as [|k ks IH]; intros w; simpl; [reflexivity|]. now rewrite IH.
Qed.

Lemma clear_isDisposed w :
  _isDisposed (world_of (GoogleRealtimeMap.clear w)) = _isDisposed w.
Proof.
  destruct (_gmap w) eqn:Hg.
  - unfold GoogleRealtimeMap.clear, GoogleRealtimeMap.keys.
    unfold mbind at 1, M_bind at 1, read.
    destruct (ObservableMap.keys (_map w)) as [|k ks]; simpl; [reflexivity|].
    unfold mbind at 1, M_bind at 1. unfold mbind at 1, M_bind at 1.
    now rewrite (delete_unattached _ _ Hg).
  - rewrite (clear_attached _ Hg). simpl. apply fold_clear_step_isDisposed.
Qed.

Lemma exec_isDisposed tgs op w :
  _isDisposed w = true -> _isDisposed (exec tgs op w) = true.
Proof.
  intros Hd.
  destruct op as [|key v|key| |key val sv|m| | |key v|key|key v|key|order]; simpl.
  - destruct (set_googleObject_leaves w) as (_ & _ & _ & _ & Hdis & _).
    now rewrite Hdis.
  - destruct (_gmap w) eqn:Hg.
    + now rewrite (set_unattached _ _ _ _ Hg).
    + now rewrite (set_attached _ _ _ _ Hg).
  - destruct (_gmap w) eqn:Hg.
    + now rewrite (delete_unattached _ _ Hg).
    + now rewrite (delete_attached _ _ Hg).
  - now rewrite clear_isDisposed.
  - unfold GoogleRealtimeMap.linkSet, mbind, M_bind, modify, gmap_set, on_gmap. simpl.
    destruct (_gmap w); simpl; [exact Hd|]. now rewrite g_set_local.
  - exact Hd.
  - exact Hd.
  - unfold GoogleRealtimeMap.dispose. now rewrite Hd.
  - unfold g_set, dispatch. now rewrite iter_listener_isDisposed.
  - unfold g_delete, dispatch. now rewrite iter_listener_isDisposed.
  - now rewrite g_set_local.
  - now rewrite g_delete_local.
  - exact Hd.
Qed.

(** X12.  Nothing resets [_isDisposed]: once an adapter is disposed, then
    whatever happens to it afterwards, the setter of [googleObject]
    included, [isDisposed] stays true and [dispose()] returns without
    touching the world. *)
Theorem disposed_forever (tgs : value -> value) (ops : list Op) (w : World) :
  _isDisposed w = true ->
  let w' := run tgs ops w in
  GoogleRealtimeMap.isDisposed w' = Return true w' /\
  GoogleRealtimeMap.dispose w' = Return tt w'.
Proof.
  intros Hd w'.
  assert (H : _isDisposed w' = true).
  { subst w'. unfold run. revert w Hd.
    induction ops as [|op ops IH]; intros w Hd; simpl; [exact Hd|].
    apply IH. now apply exec_isDisposed. }
  unfold GoogleRealtimeMap.isDisposed, GoogleRealtimeMap.dispose, read.
  now rewrite H.
Qed.

Lemma disposed_forever_witness :
  let w := world_of (GoogleRealtimeMap.dispose w_zero) in
  let w' := run (fun x => x)
                [OpSetGoogleObject; OpSet "b" (JNum 1); CollaboratorSet "c" (JNum 2)] w in
  _isDisposed w = true /\
  GoogleRealtimeMap.isDisposed w' = Return true w' /\
  GoogleRealtimeMap.dispose w' = Return tt w'.
Proof.
  split; [reflexivity|].
  exact (disposed_forever (fun x => x)
           [OpSetGoogleObject; OpSet "b" (JNum 1); CollaboratorSet "c" (JNum 2)]
           (world_of (GoogleRealtimeMap.dispose w_zero)) eq_refl).
Defined.

(** ** values *)

Lemma values_get m :
  ObservableMap.wf m ->
  ObservableMap.values m = map (ObservableMap.get m) (ObservableMap.keys m).
Proof.
  unfold ObservableMap.values, ObservableMap.keys.
  induction m as [|[k v] m IH]; intros Hwf; simpl; [reflexivity|].
  apply wf_tail in Hwf as [Hk Hwf]. rewrite String.eqb_refl. f_equal.
  rewrite (IH Hwf). apply map_ext_in. intros k' Hin.
  destruct (String.eqb_spec k' k) as [->|Hne]; [|reflexivity].
  apply list_elem_of_In, has_keys in Hin. congruence.
Qed.

(** X13.  In every history of an adapter [values()] lists, in the order of
    [keys()], the value [get] returns for each key; the two lists have the
    same length. *)
Theorem values_follow_keys (tgs : value -> value) (g : CollaborativeMap)
    (converters : gmap string IRealtimeConverter) (ops : list Op) :
  let w := run tgs ops (constructor g converters) in
  exists ks vs,
    GoogleRealtimeMap.keys w = Return ks w /\
    GoogleRealtimeMap.values w = Return vs w /\
    vs = map (fun k => ObservableMap.get (_map w) k) ks /\
    length vs = length ks.
Proof.
  intros w. exists (ObservableMap.keys (_map w)), (ObservableMap.values (_map w)).
  split; [reflexivity|]. split; [reflexivity|].
  assert (Hv : ObservableMap.values (_map w) =
               map (ObservableMap.get (_map w)) (ObservableMap.keys (_map w))).
  { apply values_get. apply run_wf, wf_nil. }
  split; [exact Hv|]. rewrite Hv. now rewrite length_map.
Qed.

(** ** The cache covers the collaborative map *)

Lemma well_linked_empty : well_linked ∅.
Proof. intros k c vec Hc. rewrite lookup_empty in Hc. discriminate. Qed.

Lemma iter_listener_has evt n w k :
  well_linked (_converters w) ->
  ValueChangedEvent.isLocal evt = false ->
  ObservableMap.has (_map w) k = true \/
    (k = ValueChangedEvent.property evt /\ (1 <= n)%nat) ->
  ObservableMap.has (_map (Nat.iter n (fun w0 => world_of (listener evt w0)) w)) k = true.
Proof.
  intros Hwl Hloc. induction n as [|n IH]; intros H; simpl.
  - destruct H as [H|[_ H]]; [exact H | lia].
  - rewrite hear, Hloc.
    destruct (iter_listener_evolves evt n w) as (_ & _ & _ & _ & Hc).
    simpl in Hc. rewrite Hc.
    destruct (createNewEntry_well_linked (_converters w)
                (ValueChangedEvent.property evt) (ValueChangedEvent.newValue evt) Hwl)
      as [entry He].
    rewrite He. simpl.
    destruct (decide (k = ValueChangedEvent.property evt)) as [->|Hne].
    + apply has_set_eq.
    + rewrite has_set_ne by exact Hne. apply IH.
      destruct H as [H|[H _]]; [now left | contradiction].
Qed.

Lemma clear_step_covers w k : covers w -> covers (clear_step w k).
Proof.
  intros Hinv Hg. destruct (Hinv Hg) as [Hl Hc]. split; [exact Hl|].
  intros x Hx. simpl in *.
  destruct (decide (x = k)) as [->|Hne].
  - rewrite lookup_delete_eq in Hx. now destruct Hx.
  - rewrite !lookup_delete_ne in Hx by congruence.
    rewrite has_delete_ne by exact Hne. now apply Hc.
Qed.

Lemma fold_clear_step_covers ks : forall w,
  covers w -> covers (fold_left clear_step ks w).
Proof.
  induction ks as [|k ks IH]; intros w Hinv; simpl; [exact Hinv|].
  apply IH. now apply clear_step_covers.
Qed.

Lemma clear_gmap w : _gmap (world_of (GoogleRealtimeMap.clear w)) = _gmap w.
Proof.
  destruct (_gmap w) eqn:Hg.
  - unfold GoogleRealtimeMap.clear, GoogleRealtimeMap.keys.
    unfold mbind at 1, M_bind at 1, read.
    destruct (ObservableMap.keys (_map w)) as [|k ks]; simpl; [exact Hg|].
    unfold mbind at 1, M_bind at 1. unfold mbind at 1, M_bind at 1.
    now rewrite (delete_unattached _ _ Hg).
  - rewrite (clear_attached _ Hg). simpl.
    now rewrite (proj1 (fold_clear_step_fields _ _)).
Qed.

Lemma clear_converters w :
  _converters (world_of (GoogleRealtimeMap.clear w)) = _converters w.
Proof.
  destruct (_gmap w) eqn:Hg.
  - unfold GoogleRealtimeMap.clear, GoogleRealtimeMap.keys.
    unfold mbind at 1, M_bind at 1, read.
    destruct (ObservableMap.keys (_map w)) as [|k ks]; simpl; [reflexivity|].
    unfold mbind at 1, M_bind at 1. unfold mbind at 1, M_bind at 1.
    now rewrite (delete_unattached _ _ Hg).
  - rewrite (clear_attached _ Hg). simpl.
    now rewrite (proj2 (fold_clear_step_fields _ _)).
Qed.

(** No operation changes the converters. *)
Lemma exec_converters tgs op w : _converters (exec tgs op w) = _converters w.
Proof.
  destruct op as [|key v|key| |key val sv|m| | |key v|key|key v|key|order]; simpl.
  - apply (set_googleObject_leaves w).
  - destruct (_gmap w) eqn:Hg.
    + now rewrite (set_unattached _ _ _ _ Hg).
    + now rewrite (set_attached _ _ _ _ Hg).
  - destruct (_gmap w) eqn:Hg.
    + now rewrite (delete_unattached _ _ Hg).
    + now rewrite (delete_attached _ _ Hg).
  - apply clear_converters.
  - unfold GoogleRealtimeMap.linkSet, mbind, M_bind, modify, gmap_set, on_gmap. simpl.
    destruct (_gmap w); simpl; [reflexivity|]. now rewrite g_set_local.
  - reflexivity.
  - reflexivity.
  - unfold GoogleRealtimeMap.dispose.
    destruct (_isDisposed w); [reflexivity|].
    unfold mbind, M_bind, modify, gmap_removeAllEventListeners, on_gmap. simpl.
    now destruct (_gmap w).
  - unfold g_set, dispatch.
    match goal with
    | |- _converters (Nat.iter ?n _ ?w0) = _ =>
        now rewrite (proj2 (proj2 (proj2 (proj2 (iter_listener_evolves _ n w0)))))
    end.
  - unfold g_delete, dispatch.
    match goal with
    | |- _converters (Nat.iter ?n _ ?w0) = _ =>
        now rewrite (proj2 (proj2 (proj2 (proj2 (iter_listener_evolves _ n w0)))))
    end.
  - now rewrite g_set_local.
  - now rewrite g_delete_local.
  - reflexivity.
Qed.

(** With converters that keep to their contract, every operation but a
    foreign local [set] keeps the cache covering the collaborative map. *)
Lemma exec_covers tgs op w :
  well_linked (_converters w) ->
  match op with LocalSet _ _ => false | _ => true end = true ->
  covers w -> covers (exec tgs op w).
Proof.
  intros Hwl Hop Hinv.
  destruct op as [|key v|key| |key val sv|m| | |key v|key|key v|key|order]; unfold exec.
  - destruct (set_googleObject_returns w) as (w' & Hret & Hgobj & Hc).
    { intros k v _. now apply createNewEntry_well_linked. }
    rewrite Hret. simpl. intros _. rewrite Hgobj. split; [simpl; lia|].
    intros k Hk. apply cached_has. rewrite Hc.
    simpl in Hk. destruct Hk as [x Hx]. rewrite Hx.
    now apply createNewEntry_well_linked.
  - destruct (_gmap w) eqn:Hg.
    + rewrite (set_unattached _ _ _ _ Hg). simpl. intros Hg'. congruence.
    + rewrite (set_attached _ _ _ _ Hg). intros _.
      destruct (Hinv Hg) as [Hl Hc]. split; [exact Hl|].
      intros k Hk. simpl in *.
      destruct (decide (k = key)) as [->|Hne]; [apply has_set_eq|].
      rewrite lookup_insert_ne in Hk by congruence.
      rewrite has_set_ne by exact Hne. now apply Hc.
  - destruct (_gmap w) eqn:Hg.
    + rewrite (delete_unattached _ _ Hg). simpl. intros Hg'. simpl in Hg'. congruence.
    + rewrite (delete_attached _ _ Hg). intros _.
      destruct (Hinv Hg) as [Hl Hc]. split; [exact Hl|].
      intros k Hk. simpl in *.
      destruct (decide (k = key)) as [->|Hne].
      * rewrite lookup_delete_eq in Hk. now destruct Hk.
      * rewrite lookup_delete_ne in Hk by congruence.
        rewrite has_delete_ne by exact Hne. now apply Hc.
  - destruct (_gmap w) eqn:Hg.
    + intros Hg'. rewrite clear_gmap in Hg'. congruence.
    + rewrite (clear_attached _ Hg). simpl. now apply fold_clear_step_covers.
  - destruct (_gmap w) eqn:Hg.
    + unfold GoogleRealtimeMap.linkSet, mbind, M_bind, modify, gmap_set, on_gmap.
      simpl. rewrite Hg. simpl. intros Hg'. simpl in Hg'. congruence.
    + unfold GoogleRealtimeMap.linkSet. unfold mbind, M_bind. unfold modify at 1.
      rewrite gmap_set_attached by exact Hg. intros _.
      destruct (Hinv Hg) as [Hl Hc]. split; [exact Hl|].
      intros k Hk. simpl in *.
      destruct (decide (k = key)) as [->|Hne]; [apply has_set_eq|].
      rewrite lookup_insert_ne in Hk by congruence.
      rewrite has_set_ne by exact Hne. now apply Hc.
  - exact Hinv.
  - exact Hinv.
  - destruct (_isDisposed w) eqn:Hd.
    + unfold GoogleRealtimeMap.dispose. rewrite Hd. exact Hinv.
    + destruct (_gmap w) eqn:Hg.
      * unfold GoogleRealtimeMap.dispose. rewrite Hd.
        unfold mbind, M_bind, modify, gmap_removeAllEventListeners, on_gmap.
        simpl. rewrite Hg. simpl. intros Hg'. simpl in Hg'. congruence.
      * rewrite (dispose_attached _ Hg Hd). intros Hg'. discriminate.
  - unfold g_set, dispatch.
    match goal with
    | |- covers (Nat.iter ?n (fun w1 => world_of (listener ?e w1)) ?w0) =>
        destruct (iter_listener_evolves e n w0) as (_ & Hgobj & Hgmap & _);
        pose proof (iter_listener_has e n w0) as Hhas
    end.
    intros Hg'. rewrite Hgmap in Hg'. simpl in Hg'.
    destruct (Hinv Hg') as [Hl Hc]. rewrite Hgobj. split; [exact Hl|].
    intros k Hk. simpl in Hk. apply Hhas; [exact Hwl | reflexivity|]. simpl.
    destruct (decide (k = key)) as [->|Hne]; [right; auto|].
    left. rewrite lookup_insert_ne in Hk by congruence. now apply Hc.
  - unfold g_delete, dispatch.
    match goal with
    | |- covers (Nat.iter ?n (fun w1 => world_of (listener ?e w1)) ?w0) =>
        destruct (iter_listener_evolves e n w0) as (_ & Hgobj & Hgmap & _);
        pose proof (iter_listener_has e n w0) as Hhas
    end.
    intros Hg'. rewrite Hgmap in Hg'. simpl in Hg'.
    destruct (Hinv Hg') as [Hl Hc]. rewrite Hgobj. split; [exact Hl|].
    intros k Hk. simpl in Hk. apply Hhas; [exact Hwl | reflexivity|]. simpl.
    left. apply Hc.
    destruct (decide (k = key)) as [->|Hne].
    + rewrite lookup_delete_eq in Hk. now destruct Hk.
    + now rewrite lookup_delete_ne in Hk by congruence.
  - discriminate.
  - rewrite g_delete_local. intros Hg'. simpl in Hg'.
    destruct (Hinv Hg') as [Hl Hc]. split; [exact Hl|].
    intros k Hk. simpl in *. apply Hc.
    destruct (decide (k = key)) as [->|Hne].
    + rewrite lookup_delete_eq in Hk. now destruct Hk.
    + now rewrite lookup_delete_ne in Hk by congruence.
  - exact Hinv.
Qed.

Lemma run_covers tgs ops : forall w,
  well_linked (_converters w) ->
  no_local_set ops = true -> covers w -> covers (run tgs ops w).
Proof.
  unfold run, no_local_set.
  induction ops as [|op ops IH]; intros w Hwl Hops Hinv; simpl; [exact Hinv|].
  simpl in Hops. apply andb_prop in Hops as [Hop Hops].
  apply IH; [now rewrite exec_converters | exact Hops | now apply exec_covers].
Qed.

(** X14.  With converters that keep to their contract, in a history in
    which no other code of the client sets a key on the collaborative map
    directly, an attached adapter has every key the map holds, so [size]
    returns and never exceeds the length of [keys()]: calls through the
    adapter write both sides, the setter copies every key, and the listener
    stores every key a collaborator changes. *)
Theorem cache_covers_collaborative_map (tgs : value -> value)
    (g : CollaborativeMap) (converters : gmap string IRealtimeConverter)
    (ops : list Op) :
  well_linked converters ->
  no_local_set ops = true ->
  let w := run tgs ops (constructor g converters) in
  _gmap w = Ref ->
  (forall k, is_Some (gentries (gobj w) !! k) ->
     GoogleRealtimeMap.has k w = Return true w) /\
  exists n,
    GoogleRealtimeMap.size w = Return n w /\
    (n <= length (ObservableMap.keys (_map w)))%nat.
Proof.
  intros Hwl Hops w Hg.
  assert (Hinv : covers w).
  { apply run_covers; [exact Hwl | exact Hops|]. intros Hnull. discriminate. }
  destruct (Hinv Hg) as [_ Hc].
  split.
  - intros k Hk. unfold GoogleRealtimeMap.has, read. now rewrite (Hc k Hk).
  - exists (size (gentries (gobj w))). split.
    + unfold GoogleRealtimeMap.size, gmap_size, on_gmap. now rewrite Hg.
    + rewrite <- size_dom.
      rewrite <- (size_list_to_set (C := gset string)
                    (ObservableMap.keys (_map w))).
      * apply subseteq_size. intros k Hk.
        apply elem_of_dom in Hk. apply elem_of_list_to_set, has_keys. now apply Hc.
      * apply (run_wf tgs ops (constructor g converters)), wf_nil.
Qed.

Lemma well_linked_conv_link : well_linked {["a" := conv_link]}.
Proof.
  intros k c vec Hc. apply lookup_singleton_Some in Hc as [_ <-]. reflexivity.
Qed.

Lemma cache_covers_collaborative_map_witness :
  let ops := [OpSetGoogleObject; CollaboratorSet "c" (JNum 2);
              CollaboratorDelete "a"; OpSet "b" (JNum 1); LocalDelete "b"] in
  let w := run (fun x => x) ops (constructor g_list {["a" := conv_link]}) in
  well_linked {["a" := conv_link]} /\
  no_local_set ops = true /\
  _gmap w = Ref /\
  exists n,
    GoogleRealtimeMap.size w = Return n w /\
    (n <= length (ObservableMap.keys (_map w)))%nat.
Proof.
  split; [exact well_linked_conv_link|]. split; [reflexivity|]. split; [reflexivity|].
  exact (proj2 (cache_covers_collaborative_map (fun x => x) g_list {["a" := conv_link]}
                  [OpSetGoogleObject; CollaboratorSet "c" (JNum 2);
                   CollaboratorDelete "a"; OpSet "b" (JNum 1); LocalDelete "b"]
                  well_linked_conv_link eq_refl eq_refl)).
Defined.

(** ** set followed by delete *)

Lemma delete_set_absent m k v :
  ObservableMap.has m k = false ->
  ObservableMap.delete (ObservableMap.set m k v) k = m.
Proof.
  induction m as [|[k' v'] m IH]; simpl.
  - now rewrite String.eqb_refl.
  - destruct (String.eqb k k') eqn:E; [discriminate|].
    intros H. simpl. rewrite E. now rewrite IH.
Qed.

(** X15.  On an attached adapter that does not have the key, [set(key, v)]
    followed by [delete(key)] returns [undefined] and then [v], leaves the
    cache exactly as it was, keys in the same order, leaves the
    collaborative map without the key (unchanged when it did not hold
    it), and emits an [add] event followed by a [remove] event that
    carries [v]. *)
Theorem set_then_delete_restores (tgs : value -> value) (w : World)
    (key : string) (v : value) :
  _gmap w = Ref ->
  ObservableMap.has (_map w) key = false ->
  exists w1 w2,
    GoogleRealtimeMap.set tgs key v w = Return undefined w1 /\
    GoogleRealtimeMap.delete key w1 = Return v w2 /\
    _map w2 = _map w /\
    gentries (gobj w2) = delete key (gentries (gobj w)) /\
    (gentries (gobj w) !! key = None -> gentries (gobj w2) = gentries (gobj w)) /\
    changed w2 =
      (changed w ++
       [{| IChangedArgs.type := add; IChangedArgs.key := key;
           IChangedArgs.oldValue := undefined; IChangedArgs.newValue := v |};
        {| IChangedArgs.type := remove; IChangedArgs.key := key;
           IChangedArgs.oldValue := v; IChangedArgs.newValue := undefined |}])%list.
Proof.
  intros Hg Hno.
  pose proof (set_attached tgs key v w Hg) as Hset.
  rewrite (get_absent _ _ Hno) in Hset.
  set (w1 := after_set (GoogleRealtimeMap._createNewGoogleEntry tgs (_converters w) key v)
                       key v w) in *.
  assert (Hg1 : _gmap w1 = Ref) by exact Hg.
  pose proof (delete_attached key w1 Hg1) as Hdel.
  assert (Hget : ObservableMap.get (_map w1) key = v) by (simpl; apply get_set_eq).
  rewrite Hget in Hdel.
  exists w1, (after_delete key w1).
  split; [exact Hset|]. split; [exact Hdel|].
  split; [simpl; now apply delete_set_absent|].
  split; [simpl; apply delete_insert_eq|].
  split.
  - intros Hnone. simpl. now apply delete_insert_id.
  - unfold after_delete. rewrite Hget. simpl.
    rewrite (get_absent _ _ Hno). simpl. now rewrite <- app_assoc.
Qed.

Lemma set_then_delete_restores_witness :
  _gmap w_two = Ref /\
  ObservableMap.has (_map w_two) "c" = false /\
  exists w1 w2,
    GoogleRealtimeMap.set (fun x => x) "c" (JNum 3) w_two = Return undefined w1 /\
    GoogleRealtimeMap.delete "c" w1 = Return (JNum 3) w2 /\
    _map w2 = _map w_two.
Proof.
  split; [reflexivity|]. split; [reflexivity|].
  destruct (set_then_delete_restores (fun x => x) w_two "c" (JNum 3) eq_refl eq_refl)
    as (w1 & w2 & Hs & Hd & Hm & _).
  exists w1, w2. repeat split; assumption.
Defined.

(** ** clear empties both sides *)

(** X16.  With converters that keep to their contract, in a history in
    which no other code of the client sets a key on the collaborative map
    directly, [clear()] on an attached adapter returns and leaves the
    collaborative map as empty as the cache: [keys()] is empty and [size]
    is 0. *)
Theorem clear_empties_collaborative_map (tgs : value -> value)
    (g : CollaborativeMap) (converters : gmap string IRealtimeConverter)
    (ops : list Op) :
  well_linked converters ->
  no_local_set ops = true ->
  let w := run tgs ops (constructor g converters) in
  _gmap w = Ref ->
  exists w',
    GoogleRealtimeMap.clear w = Return tt w' /\
    GoogleRealtimeMap.keys w' = Return [] w' /\
    gentries (gobj w') = ∅ /\
    GoogleRealtimeMap.size w' = Return 0%nat w'.
Proof.
  intros Hwl Hops w Hg.
  assert (Hwf : ObservableMap.wf (_map w)).
  { apply (run_wf tgs ops (constructor g converters)), wf_nil. }
  assert (Hinv : covers w).
  { apply run_covers; [exact Hwl | exact Hops|]. intros Hnull. discriminate. }
  destruct (fold_clear_step_spec (_map w) w eq_refl Hwf) as (Hmap & _ & _ & _).
  pose proof (fold_clear_step_covers (ObservableMap.keys (_map w)) w Hinv) as Hinv'.
  destruct (fold_clear_step_fields (ObservableMap.keys (_map w)) w) as [Hg' _].
  set (w' := fold_left clear_step (ObservableMap.keys (_map w)) w) in *.
  assert (Hempty : gentries (gobj w') = ∅).
  { apply map_eq. intros k. rewrite lookup_empty.
    destruct (gentries (gobj w') !! k) as [x|] eqn:Hk; [|reflexivity].
    assert (Hg'' : _gmap w' = Ref) by congruence.
    destruct (Hinv' Hg'') as [_ Hc].
    assert (Hhas : ObservableMap.has (_map w') k = true) by (apply Hc; eauto).
    rewrite Hmap in Hhas. discriminate. }
  exists w'. split; [now apply clear_attached|].
  split; [unfold GoogleRealtimeMap.keys, read; now rewrite Hmap|].
  split; [exact Hempty|].
  unfold GoogleRealtimeMap.size, gmap_size, on_gmap, read.
  rewrite Hg', Hg, Hempty. reflexivity.
Qed.

Lemma clear_empties_collaborative_map_witness :
  let ops := [OpSetGoogleObject; CollaboratorSet "c" (JNum 2); OpSet "b" (JNum 1)] in
  let w := run (fun x => x) ops (constructor g_zero ∅) in
  no_local_set ops = true /\
  _gmap w = Ref /\
  exists w',
    GoogleRealtimeMap.clear w = Return tt w' /\
    GoogleRealtimeMap.size w' = Return 0%nat w'.
Proof.
  split; [reflexivity|]. split; [reflexivity|].
  destruct (clear_empties_collaborative_map (fun x => x) g_zero ∅
              [OpSetGoogleObject; CollaboratorSet "c" (JNum 2); OpSet "b" (JNum 1)]
              well_linked_empty eq_refl eq_refl) as (w' & Hc & _ & _ & Hs).
  exists w'. split; assumption.
Defined.

(** ** A list whose converter image has no link method *)

(** The loop stops at a key whose entry does not reconstruct, and leaves
    that key as the cache had it. *)
Lemma fill_fails converters g ks k : forall m,
  k ∈ ks ->
  _createNewEntry converters k (g_get g k) = None ->
  (fill converters g ks m).2 = false /\
  cached (fill converters g ks m).1 k = cached m k.
Proof.
  induction ks as [|k0 ks IH]; intros m Hin Hk; cbn [fill].
  - inversion Hin.
  - destruct (_createNewEntry converters k0 (g_get g k0)) as [entry|] eqn:He0; [|auto].
    assert (Hne : k <> k0) by congruence.
    apply elem_of_cons in Hin as [?|Hin]; [contradiction|].
    destruct (IH (ObservableMap.set m k0 entry) Hin Hk) as [Hok Hc].
    split; [exact Hok|]. rewrite Hc. now apply cached_set_ne.
Qed.

(** X17.  When the collaborative map holds an entry that does not
    reconstruct (a collaborative list at a key whose converter image has
    no [link] method), setting [googleObject] throws: [_gmap] holds the
    map, but no listener is registered, the map receives no call, nothing
    is emitted, and the cache does not take that key. *)
Theorem set_googleObject_throws (w : World) (k : string) (v : value) :
  gentries (gobj w) !! k = Some v ->
  _createNewEntry (_converters w) k v = None ->
  exists w',
    GoogleRealtimeMap.set_googleObject w = Throw w' /\
    _gmap w' = Ref /\
    gobj w' = gobj w /\
    changed w' = changed w /\
    GoogleRealtimeMap.has k w' = Return (ObservableMap.has (_map w) k) w' /\
    GoogleRealtimeMap.get k w' = Return (ObservableMap.get (_map w) k) w'.
Proof.
  intros Hk Hnone.
  destruct (fill_fails (_converters w) (gobj w) (g_keys (gobj w)) k (_map w))
    as [Hok Hc].
  { apply elem_of_g_keys. rewrite Hk. eauto. }
  { unfold g_get. now rewrite Hk. }
  rewrite set_googleObject_world. simpl. rewrite Hok.
  eexists. split; [reflexivity|]. simpl.
  split; [reflexivity|]. split; [now destruct (gobj w)|]. split; [reflexivity|].
  unfold GoogleRealtimeMap.has, GoogleRealtimeMap.get, read. simpl.
  unfold cached in Hc.
  destruct (ObservableMap.has (fill _ _ _ _).1 k) eqn:H1,
           (ObservableMap.has (_map w) k) eqn:H2; try discriminate.
  - injection Hc as ->. auto.
  - rewrite (get_absent _ _ H1), (get_absent _ _ H2). auto.
Qed.

Lemma set_googleObject_throws_witness :
  let w := constructor g_list {["a" := conv7]} in
  gentries (gobj w) !! "a" = Some (JObject (Some "List") 1) /\
  _createNewEntry (_converters w) "a" (JObject (Some "List") 1) = None /\
  exists w',
    GoogleRealtimeMap.set_googleObject w = Throw w' /\
    glisteners (gobj w') = 0%nat /\
    GoogleRealtimeMap.has "a" w' = Return false w'.
Proof.
  assert (H1 : gentries (gobj (constructor g_list {["a" := conv7]})) !! "a"
               = Some (JObject (Some "List") 1)) by reflexivity.
  assert (H2 : _createNewEntry (_converters (constructor g_list {["a" := conv7]})) "a"
                 (JObject (Some "List") 1) = None) by reflexivity.
  split; [exact H1|]. split; [exact H2|].
  destruct (set_googleObject_throws (constructor g_list {["a" := conv7]}) "a"
              (JObject (Some "List") 1) H1 H2)
    as (w' & Hthrow & _ & Hgobj & _ & Hhas & _).
  exists w'. split; [exact Hthrow|]. split; [now rewrite Hgobj | exact Hhas].
Defined.
